(** * The module-graph traversal of [webpack.config.js]

    [UnderstandingModuleGraphPlugin] walks webpack's module map in a
    depth-first fashion, starting from the null module, and prints one line
    per module it enters.  This file embeds the closure [traverse] (and its
    caller [dfs]) and proves what it does on every module map. *)

From Stdlib Require Import Ascii String.
From stdpp Require Import gmap strings list relations.

(** ** Data model *)

(** A module object.  JavaScript compares objects by reference, so a module is
    its identity [ident] together with its immutable [resource] property,
    which may be missing ([undefined]). *)
Record NormalModule := { ident : nat; resource : option string }.

Global Instance NormalModule_eq_dec : EqDecision NormalModule.
Proof. solve_decision. Defined.

Global Instance NormalModule_countable : Countable NormalModule :=
  inj_countable' (λ m, (ident m, resource m))
                 (λ p, {| ident := p.1; resource := p.2 |})
                 (λ m, match m with Build_NormalModule _ _ => eq_refl end).

(** A node of the graph: a module, or [null] (the root), here [None]. *)
Abbreviation Node := (option NormalModule).
Abbreviation null := (@None NormalModule).

(** A [Connection]: [originModule] is where the arrow starts, [module] is
    where it ends. *)
Record Connection := { originModule : Node; module : Node }.

(** A [ModuleGraphModule]: [outgoingConnections] is either a Set (listed in
    its iteration order, which is insertion order) or [undefined]. *)
Record ModuleGraphModule :=
  { outgoingConnections : option (list Connection) }.

(** The state the closure works on: its [visited] Map, the lines written by
    [console.log], and (a ghost field, not in the source) the nodes that
    passed the visited-check, in order. *)
Record State := {
  visited : gmap Node bool;
  console : list string;
  entered : list Node
}.

(** How a call ends: it returns, or the property access on [undefined]
    throws.  [OutOfFuel] is an artefact of the recursion bound and is shown
    below never to happen in [run]; the engine's own limit on the depth of
    the call stack is not modelled. *)
Inductive completion := Normal | TypeError | OutOfFuel.

Global Instance completion_eq_dec : EqDecision completion.
Proof. solve_decision. Defined.

(** ** [path.basename] *)

(** Modelled from the spec: [path.basename] belongs to Node's [path] module,
    which is not part of this repository.  It yields the last path component:
    trailing separators are skipped, then the characters back to the previous
    separator are kept.  [rev_chars] is the string read from its end,
    [matchedSlash] tells that only separators were seen so far. *)
Fixpoint basename_scan (rev_chars : list ascii) (matchedSlash : bool)
    (acc : list ascii) : list ascii :=
  match rev_chars with
  | [] => acc
  | c :: rest =>
      if Ascii.eqb c "/"%char
      then (if matchedSlash then basename_scan rest true acc else acc)
      else basename_scan rest false (c :: acc)
  end.

Definition basename (p : string) : string :=
  string_of_list_ascii
    (basename_scan (List.rev (list_ascii_of_string p)) true []).

(** ** The traversal *)

(** JavaScript truthiness of a string-or-undefined value. *)
Definition truthy (v : option string) : bool :=
  match v with
  | Some s => negb (String.eqb s "")
  | None => false
  end.

(** [crtNode?.resource ? path.basename(crtNode?.resource) : `ROOT `] *)
Definition ROOT : string := "ROOT ".

Definition label (crtNode : Node) : string :=
  match crtNode with
  | Some m =>
      if truthy (resource m)
      then match resource m with Some r => basename r | None => ROOT end
      else ROOT
  | None => ROOT
  end.

(** [new Set(array)]: elements are added one by one; adding an element that
    is already there changes nothing, and iteration follows insertion. *)
Definition Set_add (s : list Node) (x : Node) : list Node :=
  if decide (x ∈ s) then s else s ++ [x].

Definition new_Set (array : list Node) : list Node :=
  foldl Set_add [] array.

(** [new Set(Array.from(gm.outgoingConnections || [], (c) => c.module))] *)
Definition children (gm : ModuleGraphModule) : list Node :=
  new_Set (module <$> default [] (outgoingConnections gm)).

(** The targets of the connections of an entry, in connection order: the
    array the Set of children is built from. *)
Definition targets (gm : ModuleGraphModule) : list Node :=
  module <$> default [] (outgoingConnections gm).

(** [visited.get(crtNode)] used as a condition. *)
Definition seen (st : State) (crtNode : Node) : bool :=
  match visited st !! crtNode with
  | Some b => b
  | None => false
  end.

(** [visited.set(crtNode, true); console.log(...)] *)
Definition enter (crtNode : Node) (st : State) : State :=
  {| visited := <[crtNode := true]> (visited st);
     console := console st ++ [label crtNode];
     entered := entered st ++ [crtNode] |}.

(** [for (const c of children) body(c)], stopping at the first exception. *)
Fixpoint for_of (body : Node → State → completion * State)
    (cs : list Node) (st : State) : completion * State :=
  match cs with
  | [] => (Normal, st)
  | c :: cs' =>
      match body c st with
      | (Normal, st') => for_of body cs' st'
      | r => r
      end
  end.

(** [visited.set(n, true)] for each [n] of [new] in turn. *)
Definition mark_all (v : gmap Node bool) (new : list Node) : gmap Node bool :=
  foldl (λ v n, <[n := true]> v) v new.

(** [st'] is [st] after the nodes [new] were entered, in this order. *)
Record grows (st : State) (new : list Node) (st' : State) : Prop := {
  grows_visited : visited st' = mark_all (visited st) new;
  grows_entered : entered st' = entered st ++ new;
  grows_console : console st' = console st ++ (label <$> new);
  grows_seen : ∀ m, seen st' m = true ↔ seen st m = true ∨ m ∈ new;
  grows_nodup : NoDup new;
  grows_fresh : ∀ m, m ∈ new → seen st m = false
}.

(** [mm'] holds the graph of [mm] with every node [n] replaced by [f n]: a
    node has an entry in both or in none, and the two entries list
    corresponding targets in the same order.  Nothing else is compared:
    neither the identity of the modules, nor the connection objects, nor
    whether an empty set of connections is a Set or undefined. *)
Definition same_graph (f : Node → Node)
    (mm mm' : gmap Node ModuleGraphModule) : Prop :=
  ∀ n, match mm !! n, mm' !! f n with
       | Some gm, Some gm' => targets gm' = f <$> targets gm
       | None, None => True
       | _, _ => False
       end.

(** The state [st'] is the state [st] with every node [n] replaced by
    [f n]. *)
Definition same_state (f : Node → Node) (st st' : State) : Prop :=
  (∀ n, seen st' (f n) = seen st n)
  ∧ entered st' = f <$> entered st
  ∧ console st' = console st.

(** A connection, an entry and a module map with every node replaced by its
    image. *)
Definition rename_connection (f : Node → Node) (c : Connection) : Connection :=
  {| originModule := f (originModule c); module := f (module c) |}.

Definition rename_entry (f : Node → Node) (gm : ModuleGraphModule)
    : ModuleGraphModule :=
  {| outgoingConnections :=
       match outgoingConnections gm with
       | Some cs => Some (rename_connection f <$> cs)
       | None => None
       end |}.

Definition rename_map (f : Node → Node) `{!Inj (=) (=) f}
    (mm : gmap Node ModuleGraphModule) : gmap Node ModuleGraphModule :=
  kmap f (rename_entry f <$> mm).

Section Traversal.

(** [compilation.moduleGraph._moduleMap] *)
Variable moduleMap : gmap Node ModuleGraphModule.

(** The closure [traverse].  Reading [outgoingConnections] of [undefined]
    (a node without an entry in [moduleMap]) throws a [TypeError]. *)
Fixpoint traverse (fuel : nat) (crtNode : Node) (st : State)
    : completion * State :=
  match fuel with
  | 0 => (OutOfFuel, st)
  | S fuel' =>
      if seen st crtNode then (Normal, st)
      else
        let st1 := enter crtNode st in
        match moduleMap !! crtNode with
        | None => (TypeError, st1)
        | Some correspondingGraphModule =>
            for_of (traverse fuel') (children correspondingGraphModule) st1
        end
  end.

(** A fresh [visited] Map; [out] is what the console holds already. *)
Definition fresh (out : list string) : State :=
  {| visited := ∅; console := out; entered := [] |}.

(** One traversal from [root] with a fresh [visited] Map.  No call nests
    deeper than the number of entries of [moduleMap] plus one. *)
Definition run (root : Node) (out : list string) : completion * State :=
  traverse (S (size moduleMap)) root (fresh out).

(** [dfs]: [const root = null; ...; traverse(root)]. *)
Definition dfs (out : list string) : completion * State := run null out.

(** ** The graph that [moduleMap] describes *)

(** [u] has a connection to [v]. *)
Definition edge (u v : Node) : Prop :=
  ∃ gm cs c, moduleMap !! u = Some gm ∧ outgoingConnections gm = Some cs
             ∧ c ∈ cs ∧ module c = v.

Definition reachable (r v : Node) : Prop := rtc edge r v.

(** [path x p z]: [p] lists the nodes of a directed path from [x] to [z],
    both ends included. *)
Inductive path : Node → list Node → Node → Prop :=
| path_here x : path x [x] x
| path_step x y p z : edge x y → path y p z → path x (x :: p) z.


(** [v] lies on a cycle (a self-loop counts). *)
Definition on_cycle (v : Node) : Prop := tc edge v v.

(** Every node reachable from [r] has an entry in [moduleMap]. *)
Definition closed_from (r : Node) : Prop :=
  ∀ v, reachable r v → is_Some (moduleMap !! v).

(** [v] was entered exactly once, and the console, which held [out]
    before, got [v]'s label at that very place. *)
Definition once_in (v : Node) (out : list string) (st : State) : Prop :=
  ∃ l1 l2, entered st = l1 ++ v :: l2 ∧ (v ∉ l1) ∧ (v ∉ l2)
           ∧ console st = out ++ (label <$> l1) ++ label v :: (label <$> l2).

(** ** Big-step relation of the calls, for induction

    [exec n st c st']: the call [traverse(n)] from [st] ends as [c] in
    [st']; [exec_loop] is the [for...of] loop. *)
Inductive exec : Node → State → completion → State → Prop :=
| exec_seen n st :
    seen st n = true → exec n st Normal st
| exec_missing n st :
    seen st n = false → moduleMap !! n = None →
    exec n st TypeError (enter n st)
| exec_children n st gm c st' :
    seen st n = false → moduleMap !! n = Some gm →
    exec_loop (children gm) (enter n st) c st' →
    exec n st c st'
with exec_loop : list Node → State → completion → State → Prop :=
| loop_done st : exec_loop [] st Normal st
| loop_throw ch cs st st' :
    exec ch st TypeError st' → exec_loop (ch :: cs) st TypeError st'
| loop_next ch cs st st1 c st' :
    exec ch st Normal st1 → exec_loop cs st1 c st' →
    exec_loop (ch :: cs) st c st'.

(** What a call that ended as [c] has done: it entered the nodes [new],
    starting with [n] itself; each of them was reached from [n] along nodes
    entered no later; after a normal end each has an entry and all its
    targets are marked; after an exception one of them has no entry. *)
Definition call_post (n : Node) (st : State) (c : completion)
    (st' : State) : Prop :=
  ∃ new, grows st new st'
    ∧ (seen st n = false → ∃ rest, new = n :: rest)
    ∧ (∀ a x b, new = a ++ x :: b →
         ∃ p, path n p x ∧ ∀ y, y ∈ p → y ∈ a ++ [x])
    ∧ (c = Normal →
         seen st' n = true ∧
         ∀ m, m ∈ new → is_Some (moduleMap !! m) ∧
                        ∀ m', edge m m' → seen st' m' = true)
    ∧ (c = TypeError → ∃ m, m ∈ new ∧ moduleMap !! m = None).

Definition loop_post (cs : list Node) (st : State) (c : completion)
    (st' : State) : Prop :=
  ∃ new, grows st new st'
    ∧ (∀ a x b, new = a ++ x :: b →
         ∃ ch p, ch ∈ cs ∧ path ch p x ∧ ∀ y, y ∈ p → y ∈ a ++ [x])
    ∧ (c = Normal →
         (∀ ch, ch ∈ cs → seen st' ch = true) ∧
         ∀ m, m ∈ new → is_Some (moduleMap !! m) ∧
                        ∀ m', edge m m' → seen st' m' = true)
    ∧ (c = TypeError → ∃ m, m ∈ new ∧ moduleMap !! m = None).

(** The same state on a console that held [out] before. *)
Definition prepend (out : list string) (st : State) : State :=
  {| visited := visited st; console := out ++ console st;
     entered := entered st |}.

(** Entries of [moduleMap] not yet marked: the recursion measure. *)
Definition pending (st : State) : gset Node :=
  filter (λ n, seen st n = false) (dom moduleMap).

End Traversal.

Scheme exec_mut := Minimality for exec Sort Prop
  with exec_loop_mut := Minimality for exec_loop Sort Prop.
Combined Scheme exec_mutind from exec_mut, exec_loop_mut.

(** First-seen order, written after the words of the specification and not
    after the code, to compare [children] with: each distinct target stands
    at the place of its first occurrence. *)
Fixpoint first_seen (targets : list Node) : list Node :=
  match targets with
  | [] => []
  | x :: rest => x :: filter (λ y, y ≠ x) (first_seen rest)
  end.

(** ** Sample module maps *)

Definition mA : Node := Some {| ident := 1; resource := Some "/src/a.js" |}.
Definition mB : Node := Some {| ident := 2; resource := Some "/src/b.js" |}.
Definition mC : Node := Some {| ident := 3; resource := Some "c.js" |}.
Definition mD : Node := Some {| ident := 4; resource := Some "/src/lib/d.js/" |}.
Definition mE : Node := Some {| ident := 5; resource := Some "" |}.

Definition conn (a b : Node) : Connection :=
  {| originModule := a; module := b |}.
Definition mgm (a : Node) (bs : list Node) : ModuleGraphModule :=
  {| outgoingConnections := Some (conn a <$> bs) |}.
Definition leaf : ModuleGraphModule := {| outgoingConnections := None |}.

(** null -> A (twice), A -> B, C, B again; B -> D; C -> D, A; D has no
    connections. *)
Definition diamond : gmap Node ModuleGraphModule :=
  <[null := mgm null [mA; mA]]> (<[mA := mgm mA [mB; mC; mB]]>
  (<[mB := mgm mB [mD]]> (<[mC := mgm mC [mD; mA]]> (<[mD := leaf]> ∅)))).

(** null -> A, B; B -> B; A has no entry in the map. *)
Definition dangling : gmap Node ModuleGraphModule :=
  <[null := mgm null [mA; mB]]> (<[mB := mgm mB [mB]]> ∅).

(** null -> E, a module whose [resource] is the empty string. *)
Definition unnamed : gmap Node ModuleGraphModule :=
  <[null := mgm null [mE]]> {[ mE := leaf ]}.

(** Only the root, without connections. *)
Definition only_root : gmap Node ModuleGraphModule := {[ null := leaf ]}.

(** [diamond] with the connections of A in another order and without the
    repeated one: A -> C, B. *)
Definition diamond_reordered : gmap Node ModuleGraphModule :=
  <[mA := mgm mA [mC; mB]]> diamond.

(** [diamond] with one more entry, for a module nothing refers to. *)
Definition diamond_plus : gmap Node ModuleGraphModule :=
  <[mE := mgm mE [mA]]> diamond.

(** Other module objects for the same files: every identity moved by ten. *)
Definition shift (n : Node) : Node :=
  (λ m, {| ident := ident m + 10; resource := resource m |}) <$> n.

Global Instance shift_inj : Inj (=) (=) shift.
Proof.
  intros [[i r]|] [[i' r']|] Heq; simpl in Heq; try done.
  injection Heq as Hi ->. f_equal. f_equal. lia.
Qed.

(** [diamond] built from those other objects. *)
Definition diamond_shifted : gmap Node ModuleGraphModule :=
  rename_map shift diamond.

(** [dangling] with the missing entry of A added. *)
Definition dangling_repaired : gmap Node ModuleGraphModule :=
  <[mA := leaf]> dangling.


(** ** Basic facts *)

Section Facts.

Variable moduleMap : gmap Node ModuleGraphModule.

Lemma seen_enter n st m :
  seen (enter n st) m = true ↔ seen st m = true ∨ m = n.
Proof.
  unfold seen, enter; simpl.
  destruct (decide (n = m)) as [->|Hne].
  - rewrite lookup_insert_eq. intuition.
  - rewrite lookup_insert_ne by done. intuition congruence.
Qed.

Lemma grows_refl st : grows st [] st.
Proof.
  split; simpl; rewrite ?app_nil_r; try done.
  - intros m. rewrite elem_of_nil. tauto.
  - constructor.
  - intros m Hm. by apply elem_of_nil in Hm.
Qed.

Lemma grows_enter n st : seen st n = false → grows st [n] (enter n st).
Proof.
  intros Hn. split; simpl; try done.
  - intros m. rewrite seen_enter, list_elem_of_singleton. done.
  - apply NoDup_singleton.
  - intros m Hm. apply list_elem_of_singleton in Hm. by subst.
Qed.

Lemma grows_trans st a st1 b st2 :
  grows st a st1 → grows st1 b st2 → grows st (a ++ b) st2.
Proof.
  intros [V1 E1 C1 S1 N1 F1] [V2 E2 C2 S2 N2 F2]. split.
  - unfold mark_all in *. by rewrite V2, V1, foldl_app.
  - by rewrite E2, E1, app_assoc.
  - by rewrite C2, C1, fmap_app, app_assoc.
  - intros m. rewrite S2, S1, elem_of_app. tauto.
  - apply NoDup_app. split; [done|]. split; [|done].
    intros m Ha Hb. apply F2 in Hb.
    assert (seen st1 m = true) by (apply S1; by right). congruence.
  - intros m [Ha|Hb]%elem_of_app; [by apply F1|].
    apply F2 in Hb. destruct (seen st m) eqn:E; [|done].
    assert (seen st1 m = true) by (apply S1; by left). congruence.
Qed.

Lemma grows_inj st a b st' : grows st a st' → grows st b st' → a = b.
Proof.
  intros [_ E1 _ _ _ _] [_ E2 _ _ _ _]. rewrite E1 in E2.
  by apply app_inv_head in E2.
Qed.

(** *** The Set of children *)

Lemma Set_add_elem s x y : y ∈ Set_add s x ↔ y ∈ s ∨ y = x.
Proof.
  unfold Set_add. case_decide.
  - intuition congruence.
  - rewrite elem_of_app, list_elem_of_singleton. done.
Qed.

Lemma Set_add_NoDup s x : NoDup s → NoDup (Set_add s x).
Proof.
  intros Hs. unfold Set_add. case_decide; [done|].
  apply NoDup_app. split; [done|]. split; [|apply NoDup_singleton].
  intros y Hy Hx. apply list_elem_of_singleton in Hx. by subst.
Qed.

Lemma foldl_Set_add_elem array : ∀ s y,
  y ∈ foldl Set_add s array ↔ y ∈ s ∨ y ∈ array.
Proof.
  induction array as [|x array IH]; intros s y; simpl.
  - rewrite elem_of_nil. tauto.
  - rewrite IH, Set_add_elem, elem_of_cons. tauto.
Qed.

Lemma foldl_Set_add_NoDup array : ∀ s,
  NoDup s → NoDup (foldl Set_add s array).
Proof.
  induction array as [|x array IH]; intros s Hs; simpl; [done|].
  by apply IH, Set_add_NoDup.
Qed.

Lemma new_Set_elem array y : y ∈ new_Set array ↔ y ∈ array.
Proof.
  unfold new_Set. rewrite foldl_Set_add_elem, elem_of_nil. tauto.
Qed.

Lemma new_Set_NoDup array : NoDup (new_Set array).
Proof. apply foldl_Set_add_NoDup. constructor. Qed.

Lemma children_NoDup gm : NoDup (children gm).
Proof. apply new_Set_NoDup. Qed.

Lemma children_elem gm v :
  v ∈ children gm ↔
  ∃ cs c, outgoingConnections gm = Some cs ∧ c ∈ cs ∧ module c = v.
Proof.
  unfold children. rewrite new_Set_elem, list_elem_of_fmap. split.
  - intros (c & -> & Hc). destruct (outgoingConnections gm) as [cs|]; simpl in Hc.
    + by exists cs, c.
    + by apply elem_of_nil in Hc.
  - intros (cs & c & -> & Hc & <-). by exists c.
Qed.

Lemma edge_children u v :
  edge moduleMap u v ↔ ∃ gm, moduleMap !! u = Some gm ∧ v ∈ children gm.
Proof.
  unfold edge. split.
  - intros (gm & cs & c & Hgm & Hcs & Hc & Hv). exists gm. split; [done|].
    apply children_elem. by exists cs, c.
  - intros (gm & Hgm & (cs & c & Hcs & Hc & Hv)%children_elem).
    by exists gm, cs, c.
Qed.

Lemma filter_first_seen_step (x : Node) (s l : list Node) :
  filter (λ y, y ∉ s ++ [x]) l = filter (λ y, y ∉ s) (filter (λ y, y ≠ x) l).
Proof.
  rewrite list_filter_filter. apply list_filter_iff. intros y.
  rewrite elem_of_app, list_elem_of_singleton. tauto.
Qed.

Lemma foldl_Set_add_first_seen array : ∀ s,
  foldl Set_add s array = s ++ filter (λ y, y ∉ s) (first_seen array).
Proof.
  induction array as [|x array IH]; intros s; simpl.
  - by rewrite filter_nil, app_nil_r.
  - rewrite IH. unfold Set_add. case_decide as Hx.
    + rewrite filter_cons_False by tauto.
      f_equal. rewrite list_filter_filter. apply list_filter_iff.
      intros y. split; [|by intros []]. intros Hy. split; [done|]. by intros ->.
    + rewrite filter_cons_True by done.
      rewrite <- app_assoc. simpl. do 2 f_equal.
      apply filter_first_seen_step.
Qed.

Lemma new_Set_first_seen array : new_Set array = first_seen array.
Proof.
  unfold new_Set. rewrite foldl_Set_add_first_seen. simpl.
  induction (first_seen array) as [|y l IH]; [done|].
  rewrite filter_cons_True by apply not_elem_of_nil. by f_equal.
Qed.

(** *** From the function to the relation *)

Lemma for_of_exec_loop body cs :
  (∀ n st c st', n ∈ cs → body n st = (c, st') → c ≠ OutOfFuel →
                 exec moduleMap n st c st') →
  ∀ st c st', for_of body cs st = (c, st') → c ≠ OutOfFuel →
              exec_loop moduleMap cs st c st'.
Proof.
  induction cs as [|ch cs IH]; intros Hbody st c st' Hrun Hc; simpl in Hrun.
  - injection Hrun as <- <-. constructor.
  - destruct (body ch st) as [c1 st1] eqn:E1.
    destruct c1.
    + eapply loop_next.
      * eapply Hbody; [left|done|done].
      * apply IH; [|done|done].
        intros n s c0 s' Hn. apply Hbody. by right.
    + injection Hrun as <- <-. apply loop_throw.
      eapply Hbody; [left|done|done].
    + injection Hrun as <- <-. done.
Qed.

Lemma traverse_exec fuel : ∀ n st c st',
  traverse moduleMap fuel n st = (c, st') → c ≠ OutOfFuel →
  exec moduleMap n st c st'.
Proof.
  induction fuel as [|fuel IH]; intros n st c st' Hrun Hc; simpl in Hrun.
  - injection Hrun as <- <-. done.
  - destruct (seen st n) eqn:Hseen.
    + injection Hrun as <- <-. by constructor.
    + destruct (moduleMap !! n) as [gm|] eqn:Hgm.
      * eapply exec_children; [done|done|].
        eapply for_of_exec_loop; [|done|done].
        intros m s c0 s' _. apply IH.
      * injection Hrun as <- <-. by constructor.
Qed.

(** *** Marks are never removed *)

Lemma for_of_seen_mono body cs m :
  (∀ n st, seen st m = true → seen (body n st).2 m = true) →
  ∀ st, seen st m = true → seen (for_of body cs st).2 m = true.
Proof.
  intros Hbody. induction cs as [|ch cs IH]; intros st Hm; simpl; [done|].
  specialize (Hbody ch st Hm).
  destruct (body ch st) as [[] st1]; simpl in *; auto.
Qed.

Lemma traverse_seen_mono fuel : ∀ n st m,
  seen st m = true → seen (traverse moduleMap fuel n st).2 m = true.
Proof.
  induction fuel as [|fuel IH]; intros n st m Hm; simpl; [done|].
  destruct (seen st n); [done|].
  assert (seen (enter n st) m = true) by (apply seen_enter; by left).
  destruct (moduleMap !! n); [|done].
  apply for_of_seen_mono; [|done]. intros; by apply IH.
Qed.

(** *** Enough fuel *)

Lemma pending_mono st st' :
  (∀ m, seen st m = true → seen st' m = true) →
  pending moduleMap st' ⊆ pending moduleMap st.
Proof.
  intros Hmono m. unfold pending. rewrite !elem_of_filter.
  intros [Hm ?]. split; [|done].
  destruct (seen st m) eqn:E; [|done]. apply Hmono in E. congruence.
Qed.

Lemma pending_enter n st :
  seen st n = false → is_Some (moduleMap !! n) →
  size (pending moduleMap (enter n st)) < size (pending moduleMap st).
Proof.
  intros Hn Hgm. apply subset_size. apply strict_spec_alt. split.
  - apply pending_mono. intros m ?. apply seen_enter. by left.
  - intros Heq.
    assert (n ∈ pending moduleMap st) as Hin.
    { apply elem_of_filter. split; [done|]. by apply elem_of_dom. }
    rewrite <- Heq in Hin. apply elem_of_filter in Hin as [Hin _].
    assert (seen (enter n st) n = true) by (apply seen_enter; by right).
    congruence.
Qed.

Lemma for_of_fuel body cs k :
  (∀ n st, size (pending moduleMap st) < k → (body n st).1 ≠ OutOfFuel) →
  (∀ n st m, seen st m = true → seen (body n st).2 m = true) →
  ∀ st, size (pending moduleMap st) < k →
        (for_of body cs st).1 ≠ OutOfFuel.
Proof.
  intros Hbody Hmono. induction cs as [|ch cs IH]; intros st Hk; simpl; [done|].
  pose proof (Hbody ch st Hk) as H1.
  pose proof (Hmono ch st) as H2.
  destruct (body ch st) as [[] st1]; simpl in *; try done.
  apply IH. eapply Nat.le_lt_trans; [|exact Hk].
  apply subseteq_size, pending_mono, H2.
Qed.

Lemma traverse_fuel fuel : ∀ n st,
  size (pending moduleMap st) < fuel →
  (traverse moduleMap fuel n st).1 ≠ OutOfFuel.
Proof.
  induction fuel as [|fuel IH]; intros n st Hk; [lia|]. simpl.
  destruct (seen st n) eqn:Hn; [done|].
  destruct (moduleMap !! n) as [gm|] eqn:Hgm; [|done].
  apply (for_of_fuel _ _ fuel).
  - exact IH.
  - intros; by apply traverse_seen_mono.
  - pose proof (pending_enter n st Hn (mk_is_Some _ _ Hgm)). lia.
Qed.

Lemma pending_size st : size (pending moduleMap st) ≤ size moduleMap.
Proof.
  rewrite <- size_dom. apply subseteq_size.
  intros m [_ ?]%elem_of_filter. done.
Qed.

Lemma run_terminates root out : (run moduleMap root out).1 ≠ OutOfFuel.
Proof.
  apply traverse_fuel. pose proof (pending_size (fresh out)). lia.
Qed.

Lemma run_exec root out :
  exec moduleMap root (fresh out)
       (run moduleMap root out).1 (run moduleMap root out).2.
Proof.
  apply (traverse_exec (S (size moduleMap))).
  - unfold run. apply surjective_pairing.
  - apply run_terminates.
Qed.

(** *** What a call does *)

Lemma exec_post :
  (∀ n st c st', exec moduleMap n st c st' → call_post moduleMap n st c st')
  ∧ (∀ cs st c st', exec_loop moduleMap cs st c st' →
                    loop_post moduleMap cs st c st').
Proof.
  apply exec_mutind.
  - (* the node is marked already *)
    intros n st Hn. exists []. split; [apply grows_refl|].
    split; [congruence|]. split; [intros [] ? ?; discriminate|].
    split; [|discriminate]. intros _. split; [done|].
    intros m Hm. by apply elem_of_nil in Hm.
  - (* no entry: TypeError *)
    intros n st Hn Hgm. exists [n]. split; [by apply grows_enter|].
    split; [by exists []|]. split.
    { intros [|? [|? ?]] x b Heq; simpl in Heq; simplify_eq.
      exists [x]. split; [constructor|]. done. }
    split; [discriminate|]. intros _. exists n. split; [left|done].
  - (* entry found: the loop over the children *)
    intros n st gm c st' Hn Hgm _ (new & Hg & Hpath & Hnormal & Hthrow).
    exists (n :: new). split.
    { apply (grows_trans st [n] (enter n st)); [by apply grows_enter|done]. }
    split; [by exists new|]. split.
    { intros [|a0 a] x b Heq; simpl in Heq; simplify_eq.
      - exists [x]. split; [constructor|]. done.
      - destruct (Hpath a x b eq_refl) as (ch & p & Hch & Hp & Hsub).
        exists (a0 :: p). split.
        + apply path_step with ch; [|done].
          apply edge_children. by exists gm.
        + intros y [->|Hy]%elem_of_cons; [left|right; by apply Hsub]. }
    split.
    { intros ->. destruct (Hnormal eq_refl) as [Hch Hcl].
      split.
      { apply (grows_seen _ _ _ Hg). left. apply seen_enter. by right. }
      intros m [->|Hm]%elem_of_cons; [|by apply Hcl].
      split; [by rewrite Hgm|].
      intros m' (gm' & Hgm' & Hm')%edge_children.
      rewrite Hgm in Hgm'. injection Hgm' as <-. by apply Hch. }
    intros ->. destruct (Hthrow eq_refl) as (m & Hm & Hnone).
    exists m. split; [by right|done].
  - (* no child left *)
    intros st. exists []. split; [apply grows_refl|].
    split; [intros [] ? ?; discriminate|].
    split; [|discriminate]. intros _. split.
    + intros ch Hch. by apply elem_of_nil in Hch.
    + intros m Hm. by apply elem_of_nil in Hm.
  - (* a child throws *)
    intros ch cs st st' _ (new & Hg & _ & Hpath & _ & Hthrow).
    exists new. split; [done|]. split.
    { intros a x b Heq. destruct (Hpath a x b Heq) as (p & Hp & Hsub).
      exists ch, p. split; [left|done]. }
    split; [discriminate|done].
  - (* a child returns, the loop goes on *)
    intros ch cs st st1 c st' _ (new1 & Hg1 & _ & Hpath1 & Hnormal1 & _)
           _ (new2 & Hg2 & Hpath2 & Hnormal2 & Hthrow2).
    destruct (Hnormal1 eq_refl) as [Hch1 Hcl1].
    exists (new1 ++ new2). split; [by apply grows_trans with st1|]. split.
    { intros a x b Heq. apply app_eq_inv in Heq as [(k & Ha & Hk)|(k & Ha & Hk)].
      - destruct k as [|k0 k]; simpl in Hk.
        + destruct (Hpath2 [] x b (eq_sym Hk)) as (ch' & p & Hch' & Hp & Hsub).
          exists ch', p. split; [by right|]. split; [done|].
          intros y Hy. apply elem_of_app. right. by apply Hsub.
        + simplify_eq. destruct (Hpath1 a k0 k eq_refl) as (p & Hp & Hsub).
          exists ch, p. split; [left|done].
      - destruct (Hpath2 k x b Hk) as (ch' & p & Hch' & Hp & Hsub).
        exists ch', p. split; [by right|]. split; [done|].
        intros y Hy. rewrite Ha, <- app_assoc. apply elem_of_app. right.
        by apply Hsub. }
    split.
    { intros ->. destruct (Hnormal2 eq_refl) as [Hch2 Hcl2]. split.
      - intros ch' [->|Hch']%elem_of_cons; [|by apply Hch2].
        apply (grows_seen _ _ _ Hg2). by left.
      - intros m [Hm|Hm]%elem_of_app; [|by apply Hcl2].
        destruct (Hcl1 m Hm) as [Hsome Hedge]. split; [done|].
        intros m' Hm'. apply (grows_seen _ _ _ Hg2). left. by apply Hedge. }
    intros ->. destruct (Hthrow2 eq_refl) as (m & Hm & Hnone).
    exists m. split; [|done]. apply elem_of_app. by right.
Qed.

(** *** One traversal with a fresh [visited] Map *)

Lemma mark_all_lookup new : ∀ v m,
  mark_all v new !! m = if decide (m ∈ new) then Some true else v !! m.
Proof.
  unfold mark_all.
  induction new as [|n new IH]; intros v m; simpl.
  - done.
  - rewrite IH.
    destruct (decide (m ∈ new)) as [Hin|Hout],
             (decide (m ∈ n :: new)) as [Hin'|Hout']; try done.
    + destruct Hout'. by right.
    + apply elem_of_cons in Hin' as [->|?]; [|done].
      apply lookup_insert_eq.
    + apply lookup_insert_ne. intros ->. apply Hout'. left.
Qed.

Lemma run_grows root out :
  grows (fresh out) (entered (run moduleMap root out).2)
        (run moduleMap root out).2.
Proof.
  destruct (proj1 exec_post _ _ _ _ (run_exec root out)) as (new & Hg & _).
  pose proof (grows_entered _ _ _ Hg) as He. simpl in He. by rewrite He.
Qed.

Lemma run_post root out :
  call_post moduleMap root (fresh out)
            (run moduleMap root out).1 (run moduleMap root out).2.
Proof. apply exec_post, run_exec. Qed.

Lemma run_console root out :
  console (run moduleMap root out).2
  = out ++ (label <$> entered (run moduleMap root out).2).
Proof. apply (grows_console _ _ _ (run_grows root out)). Qed.

Lemma run_NoDup root out : NoDup (entered (run moduleMap root out).2).
Proof. apply (grows_nodup _ _ _ (run_grows root out)). Qed.

Lemma run_seen root out m :
  seen (run moduleMap root out).2 m = true
  ↔ m ∈ entered (run moduleMap root out).2.
Proof.
  rewrite (grows_seen _ _ _ (run_grows root out)).
  unfold seen at 1; simpl. rewrite lookup_empty. intuition congruence.
Qed.

Lemma run_head root out :
  ∃ rest, entered (run moduleMap root out).2 = root :: rest.
Proof.
  destruct (run_post root out) as (new & Hg & Hhead & _).
  rewrite (grows_inj _ _ _ _ (run_grows root out) Hg).
  apply Hhead. unfold seen; simpl. by rewrite lookup_empty.
Qed.

Lemma path_reachable x p z : path moduleMap x p z → reachable moduleMap x z.
Proof.
  induction 1 as [x|x y p z Hxy _ IH]; [apply rtc_refl|].
  by apply rtc_l with y.
Qed.

Lemma reachable_path x z :
  reachable moduleMap x z → ∃ p, path moduleMap x p z.
Proof.
  induction 1 as [x|x y z Hxy _ [p Hp]].
  - exists [x]. constructor.
  - exists (x :: p). by apply path_step with y.
Qed.

Lemma run_paths root out a x b :
  entered (run moduleMap root out).2 = a ++ x :: b →
  ∃ p, path moduleMap root p x ∧ ∀ y, y ∈ p → y ∈ a ++ [x].
Proof.
  destruct (run_post root out) as (new & Hg & _ & Hpath & _).
  rewrite (grows_inj _ _ _ _ (run_grows root out) Hg). apply Hpath.
Qed.

Lemma run_entered_reachable root out v :
  v ∈ entered (run moduleMap root out).2 → reachable moduleMap root v.
Proof.
  intros (a & b & Heq)%list_elem_of_split.
  destruct (run_paths root out a v b Heq) as (p & Hp & _).
  by apply path_reachable with p.
Qed.

Lemma run_normal_complete root out v :
  (run moduleMap root out).1 = Normal →
  reachable moduleMap root v → v ∈ entered (run moduleMap root out).2.
Proof.
  intros Hc Hreach.
  destruct (run_post root out) as (new & Hg & _ & _ & Hnormal & _).
  destruct (Hnormal Hc) as [Hroot Hcl].
  rewrite <- (grows_inj _ _ _ _ (run_grows root out) Hg) in Hcl.
  apply run_seen in Hroot.
  assert (∀ x y, x ∈ entered (run moduleMap root out).2 →
                 edge moduleMap x y →
                 y ∈ entered (run moduleMap root out).2) as Hstep.
  { intros x y Hx Hxy. apply run_seen. by apply (Hcl x). }
  revert Hroot Hstep. generalize (entered (run moduleMap root out).2).
  clear -Hreach. intros E. induction Hreach as [x|x y z Hxy _ IH]; [done|].
  intros Hx Hstep. apply IH; [|done]. by apply (Hstep x).
Qed.

Lemma run_normal_closed root out :
  (run moduleMap root out).1 = Normal ↔ closed_from moduleMap root.
Proof.
  split.
  - intros Hc v Hv.
    destruct (run_post root out) as (new & Hg & _ & _ & Hnormal & _).
    destruct (Hnormal Hc) as [_ Hcl].
    rewrite <- (grows_inj _ _ _ _ (run_grows root out) Hg) in Hcl.
    by apply Hcl, run_normal_complete.
  - intros Hclosed.
    pose proof (run_terminates root out) as Hfuel.
    destruct (run_post root out) as (new & Hg & _ & _ & _ & Hthrow).
    destruct ((run moduleMap root out).1); [done| |done].
    destruct (Hthrow eq_refl) as (m & Hm & Hnone).
    rewrite <- (grows_inj _ _ _ _ (run_grows root out) Hg) in Hm.
    apply run_entered_reachable, Hclosed in Hm.
    rewrite Hnone in Hm. by destruct Hm.
Qed.

Lemma entered_once root out v :
  v ∈ entered (run moduleMap root out).2 →
  once_in v out (run moduleMap root out).2.
Proof.
  intros (l1 & l2 & Heq)%list_elem_of_split.
  pose proof (run_NoDup root out) as Hnd. rewrite Heq in Hnd.
  apply NoDup_app in Hnd as (_ & Hl1 & Hl2%NoDup_cons).
  exists l1, l2. split; [done|]. split.
  { intros Hin. apply (Hl1 v Hin). left. }
  split; [tauto|].
  by rewrite run_console, Heq, fmap_app, fmap_cons.
Qed.

(** *** More fuel changes nothing *)

Lemma for_of_fuel_mono (body body' : Node → State → completion * State) cs :
  (∀ n st c st', body n st = (c, st') → c ≠ OutOfFuel →
                 body' n st = (c, st')) →
  ∀ st c st', for_of body cs st = (c, st') → c ≠ OutOfFuel →
              for_of body' cs st = (c, st').
Proof.
  intros Hbody. induction cs as [|ch cs IH]; intros st c st' Hrun Hc;
    simpl in *; [done|].
  destruct (body ch st) as [c1 st1] eqn:E1.
  destruct c1.
  - rewrite (Hbody _ _ _ _ E1) by done. by apply IH.
  - rewrite (Hbody _ _ _ _ E1) by done. done.
  - by injection Hrun as <- <-.
Qed.

Lemma traverse_fuel_mono fuel : ∀ fuel' n st c st',
  fuel ≤ fuel' →
  traverse moduleMap fuel n st = (c, st') → c ≠ OutOfFuel →
  traverse moduleMap fuel' n st = (c, st').
Proof.
  induction fuel as [|fuel IH]; intros fuel' n st c st' Hle Hrun Hc.
  - simpl in Hrun. by injection Hrun as <- <-.
  - destruct fuel' as [|fuel']; [lia|]. simpl in *.
    destruct (seen st n); [done|].
    destruct (moduleMap !! n); [|done].
    eapply for_of_fuel_mono; [|done|done].
    intros ch s c0 s'. apply IH. lia.
Qed.

(** *** What the console held before does not matter *)

Lemma for_of_prepend out (body : Node → State → completion * State) cs :
  (∀ n st, body n (prepend out st)
           = ((body n st).1, prepend out (body n st).2)) →
  ∀ st, for_of body cs (prepend out st)
        = ((for_of body cs st).1, prepend out (for_of body cs st).2).
Proof.
  intros Hbody. induction cs as [|ch cs IH]; intros st; simpl; [done|].
  rewrite Hbody. destruct (body ch st) as [[] st1]; simpl; auto.
Qed.

Lemma traverse_prepend out fuel : ∀ n st,
  traverse moduleMap fuel n (prepend out st)
  = ((traverse moduleMap fuel n st).1,
     prepend out (traverse moduleMap fuel n st).2).
Proof.
  induction fuel as [|fuel IH]; intros n st; simpl; [done|].
  change (seen (prepend out st) n) with (seen st n).
  destruct (seen st n); [done|].
  replace (enter n (prepend out st)) with (prepend out (enter n st))
    by (unfold enter, prepend; simpl; by rewrite app_assoc).
  destruct (moduleMap !! n); [|done].
  by apply for_of_prepend.
Qed.

Lemma run_prepend root out :
  run moduleMap root out
  = ((run moduleMap root []).1, prepend out (run moduleMap root []).2).
Proof.
  unfold run. rewrite <- traverse_prepend. f_equal.
  unfold prepend, fresh; simpl. by rewrite app_nil_r.
Qed.

End Facts.

Lemma run_at_fuel mm r out fuel :
  size mm < fuel → traverse mm fuel r (fresh out) = run mm r out.
Proof.
  intros Hfuel. pose proof (run_terminates mm r out) as Hterm.
  destruct (run mm r out) as [c st'] eqn:Hrun.
  apply (traverse_fuel_mono mm (S (size mm))); [lia|exact Hrun|exact Hterm].
Qed.

Lemma exec_grows mm n st c st' :
  exec mm n st c st' → ∃ new, grows st new st'.
Proof. intros (new & Hg & _)%exec_post. by exists new. Qed.

Lemma exec_loop_grows mm cs st c st' :
  exec_loop mm cs st c st' → ∃ new, grows st new st'.
Proof. intros (new & Hg & _)%exec_post. by exists new. Qed.

(** ** Facts about the sample module maps *)

Lemma edge_lookup mm u v gm :
  mm !! u = Some gm → v ∈ children gm → edge mm u v.
Proof. intros Hgm Hv. apply edge_children. by exists gm. Qed.

Lemma edge_inv mm u v gm :
  mm !! u = Some gm → edge mm u v → v ∈ children gm.
Proof.
  intros Hgm (gm' & Hgm' & Hv)%edge_children. congruence.
Qed.


Example dfs_diamond :
  dfs diamond []
  = (Normal,
     {| visited := mark_all ∅ [null; mA; mB; mD; mC];
        console := ["ROOT "; "a.js"; "b.js"; "d.js"; "c.js"]%string;
        entered := [null; mA; mB; mD; mC] |}).
Proof. vm_compute. reflexivity. Qed.

Example dfs_dangling :
  dfs dangling []
  = (TypeError,
     {| visited := mark_all ∅ [null; mA];
        console := ["ROOT "; "a.js"]%string;
        entered := [null; mA] |}).
Proof. vm_compute. reflexivity. Qed.

Example basename_samples :
  basename "/src/lib/d.js/" = "d.js"%string ∧ basename "c.js" = "c.js"%string
  ∧ basename "/" = ""%string ∧ basename "a//" = "a"%string.
Proof. repeat split. Qed.

(** ** Completeness *)

(** C1, as amended: for every module map and root such that every node
    reachable from the root has an entry in the map, every node reachable
    from the root by a directed path is entered exactly once, and its label
    stands at that one place of the output. *)
Theorem traverse_complete mm r out :
  closed_from mm r →
  ∀ v, reachable mm r v → once_in v out (run mm r out).2.
Proof.
  intros Hclosed v Hv. apply entered_once.
  apply run_normal_complete; [|done]. by apply run_normal_closed.
Qed.

Lemma traverse_complete_witness :
  closed_from diamond null ∧ reachable diamond null mD
  ∧ once_in mD [] (run diamond null []).2.
Proof.
  assert (closed_from diamond null) as Hclosed.
  { apply (run_normal_closed diamond null []). vm_compute. reflexivity. }
  assert (reachable diamond null mD) as Hreach.
  { apply rtc_l with mA.
    { eapply edge_lookup; [reflexivity|]. vm_compute. left. }
    apply rtc_l with mB.
    { eapply edge_lookup; [reflexivity|]. vm_compute. left. }
    apply rtc_once.
    eapply edge_lookup; [reflexivity|]. vm_compute. left. }
  split; [exact Hclosed|]. split; [exact Hreach|].
  exact (traverse_complete diamond null [] Hclosed mD Hreach).
Defined.

(** C1 as stated fails: in [dangling] the node B is reachable from the root,
    but the call for A, which comes first and has no entry, throws, and B is
    never entered. *)
Lemma traverse_incomplete_on_dangling :
  reachable dangling null mB ∧ ¬ once_in mB [] (run dangling null []).2.
Proof.
  split.
  - apply rtc_once. eapply edge_lookup; [reflexivity|].
    vm_compute. right. left.
  - intros (l1 & l2 & Heq & _).
    assert (mB ∈ entered (run dangling null []).2) as Hin.
    { rewrite Heq. apply elem_of_app. right. left. }
    vm_compute in Hin.
    apply elem_of_cons in Hin as [?|Hin]; [done|].
    apply elem_of_cons in Hin as [?|Hin]; [done|].
    by apply elem_of_nil in Hin.
Qed.

(** ** Exceptions *)




(** ** Cycles *)

(** C3, as amended: on every module map, cyclic or not, the traversal
    terminates (the recursion bound is never hit, and more fuel gives the
    same result), a call for a node that is marked returns at once and
    changes nothing, and no node is entered twice; when every node reachable
    from the root has an entry, every reachable node that lies on a cycle is
    entered exactly once. *)
Theorem traverse_cycle_safe mm r out :
  (run mm r out).1 ≠ OutOfFuel
  ∧ (∀ fuel, size mm < fuel → traverse mm fuel r (fresh out) = run mm r out)
  ∧ (∀ fuel n st, seen st n = true → traverse mm (S fuel) n st = (Normal, st))
  ∧ NoDup (entered (run mm r out).2)
  ∧ (closed_from mm r →
     ∀ v, reachable mm r v → on_cycle mm v → once_in v out (run mm r out).2).
Proof.
  split; [apply run_terminates|]. split.
  { intros fuel Hfuel. pose proof (run_terminates mm r out) as Hterm.
    destruct (run mm r out) as [c st'] eqn:Hrun.
    apply (traverse_fuel_mono mm (S (size mm))); [lia|exact Hrun|exact Hterm]. }
  split.
  { intros fuel n st Hn. simpl. by rewrite Hn. }
  split; [apply run_NoDup|].
  intros Hclosed v Hv _. apply entered_once.
  apply run_normal_complete; [|done]. by apply run_normal_closed.
Qed.

Lemma traverse_cycle_safe_witness :
  closed_from diamond null ∧ reachable diamond null mC ∧ on_cycle diamond mC
  ∧ once_in mC [] (run diamond null []).2.
Proof.
  assert (edge diamond null mA) as HrA.
  { eapply edge_lookup; [reflexivity|]. vm_compute. left. }
  assert (edge diamond mA mC) as HAC.
  { eapply edge_lookup; [reflexivity|]. vm_compute. right. left. }
  assert (edge diamond mC mA) as HCA.
  { eapply edge_lookup; [reflexivity|]. vm_compute. right. left. }
  assert (closed_from diamond null) as Hclosed.
  { apply (run_normal_closed diamond null []). vm_compute. reflexivity. }
  assert (reachable diamond null mC) as Hreach.
  { apply rtc_l with mA; [done|]. by apply rtc_once. }
  assert (on_cycle diamond mC) as Hcycle.
  { apply tc_l with mA; [done|]. by apply tc_once. }
  split; [exact Hclosed|]. split; [exact Hreach|]. split; [exact Hcycle|].
  destruct (traverse_cycle_safe diamond null []) as (_ & _ & _ & _ & Hcyc).
  exact (Hcyc Hclosed mC Hreach Hcycle).
Defined.

(** C3 as stated fails: in [dangling] the node B has a connection to itself
    and is reachable from the root, but the call for A throws before the
    loop of the root reaches B, so B is entered not once but never. *)
Lemma cycle_node_not_entered_on_dangling :
  on_cycle dangling mB ∧ reachable dangling null mB
  ∧ mB ∉ entered (run dangling null []).2.
Proof.
  split.
  { apply tc_once. eapply edge_lookup; [reflexivity|]. vm_compute. left. }
  split.
  { apply rtc_once. eapply edge_lookup; [reflexivity|].
    vm_compute. right. left. }
  intros Hin. vm_compute in Hin.
  apply elem_of_cons in Hin as [?|Hin]; [done|].
  apply elem_of_cons in Hin as [?|Hin]; [done|].
  by apply elem_of_nil in Hin.
Qed.

(** ** Several connections to one module *)

(** C4: when a node's entry has two (or more) distinct connections to the
    same target B, the children computed for it hold B exactly once and hold
    nothing twice, so its loop calls [traverse(B)] once; and B, like every
    node, is entered at most once in a whole traversal. *)
Theorem children_collapse_multi_edges gm cs i j ci cj B :
  outgoingConnections gm = Some cs →
  cs !! i = Some ci → cs !! j = Some cj → i ≠ j →
  module ci = B → module cj = B →
  (∃ l1 l2, children gm = l1 ++ B :: l2 ∧ (B ∉ l1) ∧ (B ∉ l2))
  ∧ NoDup (children gm)
  ∧ ∀ mm r out, NoDup (entered (run mm r out).2).
Proof.
  intros Hcs Hi _ _ HB _.
  assert (B ∈ children gm) as Hin.
  { apply children_elem. exists cs, ci. split; [done|]. split; [|done].
    by apply list_elem_of_lookup_2 with i. }
  pose proof (children_NoDup gm) as Hnd.
  split; [|split; [done|intros; apply run_NoDup]].
  apply list_elem_of_split in Hin as (l1 & l2 & Heq).
  exists l1, l2. split; [done|].
  rewrite Heq in Hnd. apply NoDup_app in Hnd as (_ & Hl1 & Hl2%NoDup_cons).
  split; [|tauto]. intros Hin. apply (Hl1 B Hin). left.
Qed.

Lemma children_collapse_multi_edges_witness :
  children (mgm mA [mB; mC; mB]) = [mB; mC]
  ∧ ∃ l1 l2, children (mgm mA [mB; mC; mB]) = l1 ++ mB :: l2
             ∧ (mB ∉ l1) ∧ (mB ∉ l2).
Proof.
  split; [reflexivity|].
  refine (proj1 (children_collapse_multi_edges (mgm mA [mB; mC; mB])
                   (conn mA <$> [mB; mC; mB]) 0 2 (conn mA mB) (conn mA mB) mB
                   _ _ _ _ _ _)); (reflexivity || lia).
Defined.

(** ** Pre-order *)



(** ** The root's label *)

(** C6: whatever the module map, the first line [dfs] writes is the root's
    label [ROOT ] (with its trailing blank); when the root has no outgoing
    connection, this line is the whole output. *)
Theorem dfs_root_label_first mm out :
  (∃ rest, console (dfs mm out).2 = out ++ "ROOT "%string :: rest)
  ∧ ((∀ v, ¬ edge mm null v) →
     console (dfs mm out).2 = out ++ ["ROOT "%string]).
Proof.
  unfold dfs. destruct (run_head mm null out) as [rest Hrest]. split.
  - exists (label <$> rest). by rewrite run_console, Hrest.
  - intros Hleaf. rewrite run_console, Hrest.
    destruct rest as [|x rest]; [done|]. exfalso.
    destruct (run_paths mm null out [null] x rest Hrest) as (p & Hp & _).
    inversion Hp as [|? y p' ? Hedge _]; subst.
    + pose proof (run_NoDup mm null out) as Hnd. rewrite Hrest in Hnd.
      apply NoDup_cons in Hnd as [Hnd _]. apply Hnd. left.
    + by apply (Hleaf y).
Qed.

Lemma dfs_root_label_first_witness :
  (∀ v, ¬ edge only_root null v)
  ∧ console (dfs only_root []).2 = ["ROOT "%string].
Proof.
  assert (∀ v, ¬ edge only_root null v) as Hleaf.
  { intros v Hv. apply (edge_inv _ _ _ leaf) in Hv; [|reflexivity].
    by apply elem_of_nil in Hv. }
  split; [exact Hleaf|].
  exact (proj2 (dfs_root_label_first only_root []) Hleaf).
Defined.

(** ** Labels *)

Lemma basename_scan_plain l : ∀ b acc,
  "/"%char ∉ l → basename_scan l b acc = rev l ++ acc.
Proof.
  induction l as [|c l IH]; intros b acc Hl; simpl; [done|].
  apply not_elem_of_cons in Hl as [Hc Hl].
  destruct (Ascii.eqb_spec c "/"%char) as [->|_]; [done|].
  rewrite IH by done. by rewrite <- app_assoc.
Qed.

Lemma basename_scan_component l l' : ∀ acc,
  "/"%char ∉ l →
  basename_scan (l ++ "/"%char :: l') false acc = rev l ++ acc.
Proof.
  induction l as [|c l IH]; intros acc Hl; simpl; [done|].
  apply not_elem_of_cons in Hl as [Hc Hl].
  destruct (Ascii.eqb_spec c "/"%char) as [->|_]; [done|].
  rewrite IH by done. by rewrite <- app_assoc.
Qed.

Lemma basename_scan_last l l' :
  l ≠ [] → "/"%char ∉ l →
  basename_scan (l ++ "/"%char :: l') true [] = rev l.
Proof.
  destruct l as [|c l]; [done|]. intros _ [Hc Hl]%not_elem_of_cons. simpl.
  destruct (Ascii.eqb_spec c "/"%char) as [->|_]; [done|].
  by apply basename_scan_component.
Qed.

Lemma elem_of_rev {A} (x : A) (l : list A) : x ∈ rev l ↔ x ∈ l.
Proof. by rewrite !list_elem_of_In, <- in_rev. Qed.

Lemma list_ascii_of_string_app s1 s2 :
  list_ascii_of_string (s1 +:+ s2)
  = list_ascii_of_string s1 ++ list_ascii_of_string s2.
Proof. induction s1 as [|c s1 IH]; simpl; [done|]. by rewrite IH. Qed.

(** C7, as amended: every line of the output is the label of the node
    entered at that place; the label is [ROOT ] for the root and for a
    module whose [resource] is missing or empty, and [path.basename] of the
    resource otherwise, which is the resource itself when it holds no
    separator, and its last component after a separator. *)
Theorem label_cases :
  label null = "ROOT "%string
  ∧ (∀ m, resource m = None ∨ resource m = Some ""%string →
          label (Some m) = "ROOT "%string)
  ∧ (∀ m s, resource m = Some s → s ≠ ""%string →
            label (Some m) = basename s)
  ∧ (∀ s, "/"%char ∉ list_ascii_of_string s → basename s = s)
  ∧ (∀ d f, f ≠ ""%string → "/"%char ∉ list_ascii_of_string f →
            basename (d +:+ "/" +:+ f) = f)
  ∧ (∀ mm r out,
       console (run mm r out).2 = out ++ (label <$> entered (run mm r out).2)).
Proof.
  split; [done|]. split.
  { intros m [Hm|Hm]; unfold label; by rewrite Hm. }
  split.
  { intros m s Hm Hs. unfold label. rewrite Hm. simpl.
    destruct (String.eqb_spec s ""); [done|]. done. }
  split.
  { intros s Hs. unfold basename.
    rewrite basename_scan_plain by (by rewrite elem_of_rev).
    rewrite rev_involutive, app_nil_r. apply string_of_list_ascii_of_string. }
  split; [|intros; apply run_console].
  intros d f Hf Hplain. unfold basename.
  rewrite !list_ascii_of_string_app, !rev_app_distr, <- app_assoc.
  change (rev (list_ascii_of_string "/")) with ["/"%char]. simpl.
  rewrite basename_scan_last.
  - rewrite rev_involutive. apply string_of_list_ascii_of_string.
  - intros Hnil. apply (f_equal (@rev ascii)) in Hnil.
    rewrite rev_involutive in Hnil. by destruct f.
  - by rewrite elem_of_rev.
Qed.

Lemma label_cases_witness :
  label mA = basename "/src/a.js" ∧ basename "/src/a.js" = "a.js"%string
  ∧ label mC = "c.js"%string.
Proof.
  destruct label_cases as (_ & _ & Hmod & Hplain & Hlast & _).
  assert (∀ s : string, s ≠ ""%string → String "/" s ≠ ""%string) as Hne
    by done.
  split.
  { apply (Hmod {| ident := 1; resource := Some "/src/a.js"%string |}).
    - reflexivity.
    - discriminate. }
  split.
  { apply (Hlast "/src"%string "a.js"%string); [discriminate|].
    apply (bool_decide_unpack _). vm_compute. exact I. }
  transitivity (basename "c.js").
  { apply (Hmod {| ident := 3; resource := Some "c.js"%string |}).
    - reflexivity.
    - discriminate. }
  apply (Hplain "c.js"%string).
  apply (bool_decide_unpack _). vm_compute. exact I.
Defined.

(** C7 as stated fails: the module E has the empty string as its resource, an
    identifier without path structure; its label is not that identifier but
    the label of the root, so the console shows the same line twice. *)
Lemma label_of_unnamed_module_is_root_label :
  mE = Some {| ident := 5; resource := Some ""%string |}
  ∧ label mE = "ROOT "%string
  ∧ label mE ≠ ""%string
  ∧ label mE ≠ basename ""
  ∧ label (Some {| ident := 6; resource := None |}) = "ROOT "%string
  ∧ entered (dfs unnamed []).2 = [null; mE]
  ∧ console (dfs unnamed []).2 = ["ROOT "; "ROOT "]%string.
Proof. vm_compute. repeat split; discriminate. Qed.

(** ** Determinism *)

Section Renaming.

Variable f : Node → Node.
Hypothesis f_inj : Inj (=) (=) f.
Hypothesis f_label : ∀ n, label (f n) = label n.
Variables mm mm' : gmap Node ModuleGraphModule.
Hypothesis mm_same : same_graph f mm mm'.

Lemma Set_add_fmap s x : Set_add (f <$> s) (f x) = f <$> Set_add s x.
Proof.
  unfold Set_add.
  destruct (decide (x ∈ s)) as [Hin|Hout].
  - rewrite decide_True by (by apply list_elem_of_fmap_2). done.
  - rewrite decide_False by (by rewrite list_elem_of_fmap_inj).
    by rewrite fmap_app.
Qed.

Lemma foldl_Set_add_fmap l : ∀ s,
  foldl Set_add (f <$> s) (f <$> l) = f <$> foldl Set_add s l.
Proof.
  induction l as [|x l IH]; intros s; simpl; [done|].
  by rewrite Set_add_fmap, IH.
Qed.

Lemma new_Set_fmap l : new_Set (f <$> l) = f <$> new_Set l.
Proof. apply (foldl_Set_add_fmap l []). Qed.

Lemma same_state_enter n st st' :
  same_state f st st' → same_state f (enter n st) (enter (f n) st').
Proof.
  intros (Hseen & Hentered & Hconsole). split; [|split]; simpl.
  - intros m. apply eq_true_iff_eq.
    rewrite !seen_enter, Hseen.
    split; (intros [?|Heq]; [by left|right]); [by apply f_inj|by rewrite Heq].
  - by rewrite Hentered, fmap_app.
  - by rewrite Hconsole, f_label.
Qed.

Lemma for_of_rename (body body' : Node → State → completion * State) cs :
  (∀ ch st st', same_state f st st' →
     (body' (f ch) st').1 = (body ch st).1
     ∧ same_state f (body ch st).2 (body' (f ch) st').2) →
  ∀ st st', same_state f st st' →
    (for_of body' (f <$> cs) st').1 = (for_of body cs st).1
    ∧ same_state f (for_of body cs st).2 (for_of body' (f <$> cs) st').2.
Proof.
  intros Hbody. induction cs as [|ch cs IH]; intros st st' Hst; simpl; [done|].
  destruct (Hbody ch st st' Hst) as [Hc Hs].
  destruct (body ch st) as [c1 s1], (body' (f ch) st') as [c1' s1'].
  simpl in *. subst c1'. destruct c1; auto.
Qed.

Lemma traverse_rename fuel : ∀ n st st',
  same_state f st st' →
  (traverse mm' fuel (f n) st').1 = (traverse mm fuel n st).1
  ∧ same_state f (traverse mm fuel n st).2 (traverse mm' fuel (f n) st').2.
Proof.
  induction fuel as [|fuel IH]; intros n st st' Hst; simpl; [done|].
  rewrite (proj1 Hst n). destruct (seen st n); [done|].
  pose proof (same_state_enter n st st' Hst) as Hst1.
  pose proof (mm_same n) as Hn.
  destruct (mm !! n) as [gm|], (mm' !! f n) as [gm'|]; try done.
  unfold children. fold (targets gm) (targets gm').
  rewrite Hn, new_Set_fmap. by apply for_of_rename.
Qed.

Lemma run_rename r :
  (run mm' (f r) []).1 = (run mm r []).1
  ∧ same_state f (run mm r []).2 (run mm' (f r) []).2.
Proof.
  rewrite <- (run_at_fuel mm r [] (S (size mm `max` size mm'))) by lia.
  rewrite <- (run_at_fuel mm' (f r) [] (S (size mm `max` size mm'))) by lia.
  apply traverse_rename. split; [|done].
  intros n. unfold seen; simpl. by rewrite !lookup_empty.
Qed.

End Renaming.

Lemma same_graph_rename_map f `{!Inj (=) (=) f} mm :
  same_graph f mm (rename_map f mm).
Proof.
  intros n. unfold rename_map. rewrite lookup_kmap, lookup_fmap.
  destruct (mm !! n) as [gm|]; simpl; [|done].
  unfold targets, rename_entry; simpl.
  destruct (outgoingConnections gm) as [cs|]; simpl; [|done].
  by rewrite <- !list_fmap_compose.
  Unshelve. done.
Qed.

Lemma same_graph_refl mm : same_graph id mm mm.
Proof.
  intros n. simpl. destruct (mm !! n); [|done]. by rewrite list_fmap_id.
Qed.

(** C8: what a traversal does is fixed by the graph alone.  The traversal of
    the specification, with its own visited set, is [run] here (the source's
    [dfs]); the closure [traverse] is the specification's [visit].  Two
    module maps that hold the same graph, that is corresponding nodes with
    corresponding targets in the same order, whichever module objects and
    connection objects they are built from, and whatever the console held
    before, give the same completion, enter corresponding nodes in the same
    order and write the same lines; the children Set of corresponding
    entries iterates over corresponding nodes in the same order.  A second
    traversal run right after the first writes the same lines again, since
    it starts with a visited Map of its own: on the Map left by the first,
    the closure returns at once and writes nothing. *)
Theorem traverse_deterministic f mm mm' r out out' :
  Inj (=) (=) f → (∀ n, label (f n) = label n) → same_graph f mm mm' →
  (run mm' (f r) out').1 = (run mm r out).1
  ∧ entered (run mm' (f r) out').2 = f <$> entered (run mm r out).2
  ∧ drop (length out') (console (run mm' (f r) out').2)
    = drop (length out) (console (run mm r out).2)
  ∧ console (run mm r (console (run mm r out).2)).2
    = console (run mm r out).2 ++ drop (length out) (console (run mm r out).2)
  ∧ (∀ fuel,
       traverse mm (S fuel) r (run mm r out).2 = (Normal, (run mm r out).2))
  ∧ (∀ gm gm', targets gm' = f <$> targets gm →
               children gm' = f <$> children gm).
Proof.
  intros Hinj Hlabel Hsame.
  destruct (run_rename f Hinj Hlabel mm mm' Hsame r)
    as (Hc & _ & Hentered & Hconsole).
  rewrite (run_prepend mm r out), (run_prepend mm' (f r) out'). simpl.
  rewrite !drop_app_length.
  split; [done|]. split; [done|]. split; [done|]. split.
  { rewrite (run_prepend mm r (out ++ _)). simpl. done. }
  split.
  - intros fuel. simpl.
    assert (seen (prepend out (run mm r []).2) r = true) as ->; [|done].
    change (seen (run mm r []).2 r = true). apply run_seen.
    destruct (run_head mm r []) as [rest ->]. left.
  - intros gm gm' Heq. unfold children. fold (targets gm) (targets gm').
    by rewrite Heq, new_Set_fmap.
Qed.

Lemma traverse_deterministic_witness :
  same_graph shift diamond diamond_shifted
  ∧ entered (run diamond_shifted null ["earlier line"%string]).2
    = shift <$> [null; mA; mB; mD; mC]
  ∧ console (run diamond_shifted null ["earlier line"%string]).2
    = ["earlier line"; "ROOT "; "a.js"; "b.js"; "d.js"; "c.js"]%string.
Proof.
  assert (same_graph shift diamond diamond_shifted) as Hsame
    by apply same_graph_rename_map.
  assert (∀ n, label (shift n) = label n) as Hlabel by (by intros [[]|]).
  destruct (traverse_deterministic shift diamond diamond_shifted null []
              ["earlier line"%string] shift_inj Hlabel Hsame)
    as (_ & Hentered & Hlines & _).
  change (shift null) with null in Hentered, Hlines.
  split; [exact Hsame|]. split.
  - etrans; [exact Hentered|]. vm_compute. reflexivity.
  - rewrite (run_console diamond_shifted) in Hlines |- *.
    rewrite drop_app_length in Hlines. rewrite Hlines.
    vm_compute. reflexivity.
Defined.

(** ** The visited Map *)

(** C9: a mark, once set, is still set when any later call returns, however
    that call ends; what a call adds to the Map is [true] for the nodes it
    enters, none of which was marked or is entered twice; and at the end of a
    traversal the Map holds [true] for exactly the nodes entered, each
    entered once, and nothing for every other node. *)
Theorem visited_monotone mm :
  (∀ fuel n st m,
     seen st m = true → seen (traverse mm fuel n st).2 m = true)
  ∧ (∀ fuel n st,
       (traverse mm fuel n st).1 ≠ OutOfFuel →
       ∃ new,
         visited (traverse mm fuel n st).2 = mark_all (visited st) new
         ∧ entered (traverse mm fuel n st).2 = entered st ++ new
         ∧ NoDup new ∧ ∀ m, m ∈ new → seen st m = false)
  ∧ (∀ r out,
       NoDup (entered (run mm r out).2)
       ∧ ∀ m, visited (run mm r out).2 !! m
              = if decide (m ∈ entered (run mm r out).2)
                then Some true else None).
Proof.
  split; [apply traverse_seen_mono|]. split.
  - intros fuel n st Hfuel.
    destruct (traverse mm fuel n st) as [c st'] eqn:Hrun.
    apply traverse_exec in Hrun; [|done].
    apply exec_post in Hrun as (new & Hg & _).
    exists new. destruct Hg. by simpl.
  - intros r out. split; [apply run_NoDup|].
    intros m. rewrite (grows_visited _ _ _ (run_grows mm r out)).
    rewrite mark_all_lookup. simpl. by rewrite lookup_empty.
Qed.

Lemma visited_monotone_witness :
  seen (enter mD (fresh [])) mD = true
  ∧ seen (traverse diamond 6 null (enter mD (fresh []))).2 mD = true
  ∧ entered (traverse diamond 6 null (enter mD (fresh []))).2
    = [mD; null; mA; mB; mC].
Proof.
  destruct (visited_monotone diamond) as (Hmono & _ & _).
  assert (seen (enter mD (fresh [])) mD = true) as Hseen by reflexivity.
  split; [exact Hseen|]. split.
  - exact (Hmono 6 null (enter mD (fresh [])) mD Hseen).
  - vm_compute. reflexivity.
Defined.

(** ** The order of the children *)

Lemma exec_ends mm :
  (∀ n st c st', exec mm n st c st' → c ≠ OutOfFuel)
  ∧ (∀ cs st c st', exec_loop mm cs st c st' → c ≠ OutOfFuel).
Proof. apply exec_mutind; intros; done. Qed.

Lemma exec_new_head mm n st c st' new :
  exec mm n st c st' → grows st new st' → seen st n = false →
  ∃ rest, new = n :: rest.
Proof.
  intros (new0 & Hg0 & Hhead & _)%exec_post Hg Hn.
  rewrite (grows_inj _ _ _ _ Hg Hg0). by apply Hhead.
Qed.

Lemma exec_loop_new_reachable mm cs st c st' new v :
  exec_loop mm cs st c st' → grows st new st' → v ∈ new →
  ∃ ch, ch ∈ cs ∧ reachable mm ch v.
Proof.
  intros (new0 & Hg0 & Hpath & _)%exec_post Hg Hv.
  rewrite (grows_inj _ _ _ _ Hg Hg0) in Hv.
  apply list_elem_of_split in Hv as (a & b & ->).
  destruct (Hpath a v b eq_refl) as (ch & p & Hch & Hp & _).
  exists ch. split; [done|]. by apply path_reachable with p.
Qed.

Lemma exec_loop_normal_seen mm cs st st' ch :
  exec_loop mm cs st Normal st' → ch ∈ cs → seen st' ch = true.
Proof.
  intros (new & _ & _ & Hnormal & _)%exec_post Hch.
  by apply (Hnormal eq_refl).
Qed.

Lemma exec_loop_app mm l1 x rest : ∀ st c st',
  exec_loop mm (l1 ++ x :: rest) st c st' →
  (c = TypeError ∧ exec_loop mm l1 st TypeError st')
  ∨ ∃ st_a, exec_loop mm l1 st Normal st_a
            ∧ exec_loop mm (x :: rest) st_a c st'.
Proof.
  induction l1 as [|ch l1 IH]; intros st c st' Hloop; simpl in Hloop.
  - right. exists st. split; [constructor|done].
  - inversion Hloop as [|? ? ? ? Hch|? ? ? st1 ? ? Hch Hrest]; subst.
    + left. split; [done|]. by apply loop_throw.
    + destruct (IH _ _ _ Hrest) as [[-> Hthrow]|(st_a & Hl1 & Hx)].
      * left. split; [done|]. by apply loop_next with st1.
      * right. exists st_a. split; [|done]. by apply loop_next with st1.
Qed.

Lemma exec_loop_head mm x rest st c st' new :
  exec_loop mm (x :: rest) st c st' → grows st new st' →
  seen st x = false → ∃ tb, new = x :: tb.
Proof.
  intros Hloop Hg Hx.
  inversion Hloop as [|? ? ? ? Hch|? ? ? st1 ? ? Hch Hrest]; subst.
  - by apply (exec_new_head mm x st TypeError st').
  - destruct (exec_grows _ _ _ _ _ Hch) as [new1 Hg1].
    destruct (exec_loop_grows _ _ _ _ _ Hrest) as [new2 Hg2].
    destruct (exec_new_head _ _ _ _ _ _ Hch Hg1 Hx) as [tx ->].
    rewrite (grows_inj _ _ _ _ Hg (grows_trans _ _ _ _ _ Hg1 Hg2)).
    by exists (tx ++ new2).
Qed.

(** Every node entered by a call was entered by a call of its own; what
    that call entered follows the node as one block, and nothing follows
    the block when that call threw. *)
Lemma exec_subcalls_any mm :
  (∀ n st c st', exec mm n st c st' →
     ∀ new a v b, grows st new st' → new = a ++ v :: b →
       ∃ st_v c_v st_v' blk rest,
         b = blk ++ rest ∧ grows st a st_v
         ∧ exec mm v st_v c_v st_v' ∧ grows st_v (v :: blk) st_v'
         ∧ (c_v = TypeError → rest = []) ∧ (c = Normal → c_v = Normal))
  ∧ (∀ cs st c st', exec_loop mm cs st c st' →
       ∀ new a v b, grows st new st' → new = a ++ v :: b →
         ∃ st_v c_v st_v' blk rest,
           b = blk ++ rest ∧ grows st a st_v
           ∧ exec mm v st_v c_v st_v' ∧ grows st_v (v :: blk) st_v'
           ∧ (c_v = TypeError → rest = []) ∧ (c = Normal → c_v = Normal)).
Proof.
  apply exec_mutind.
  - intros n st _ new a v b Hg ->.
    pose proof (grows_inj _ _ _ _ Hg (grows_refl st)) as Hnil.
    by destruct a.
  - intros n st Hn Hnone new a v b Hg ->.
    pose proof (grows_inj _ _ _ _ Hg (grows_enter n st Hn)) as Heq.
    destruct a as [|a0 [|a1 a]]; simpl in Heq; try done.
    injection Heq as -> ->.
    exists st, TypeError, (enter n st), [], [].
    split; [done|]. split; [apply grows_refl|].
    split; [by apply exec_missing|]. done.
  - intros n st gm c st' Hn Hgm Hloop IH new a v b Hg ->.
    destruct (exec_loop_grows _ _ _ _ _ Hloop) as [new' Hg'].
    pose proof (grows_trans _ _ _ _ _ (grows_enter n st Hn) Hg') as Hg0.
    pose proof (grows_inj _ _ _ _ Hg Hg0) as Heq. simpl in Heq.
    destruct a as [|a0 a]; simpl in Heq.
    + injection Heq as -> ->.
      exists st, c, st', new', []. split; [by rewrite app_nil_r|].
      split; [apply grows_refl|]. split; [by apply exec_children with gm|].
      done.
    + injection Heq as -> Heq.
      destruct (IH _ a v b Hg' (eq_sym Heq))
        as (st_v & c_v & st_v' & blk & rest & Hb & Ha & Hexec & Hblk & Hr & Hc).
      exists st_v, c_v, st_v', blk, rest.
      split; [done|]. split; [|done].
      apply (grows_trans _ [n] (enter n st)); [by apply grows_enter|done].
  - intros st new a v b Hg ->.
    pose proof (grows_inj _ _ _ _ Hg (grows_refl st)) as Hnil.
    by destruct a.
  - intros ch cs st st' Hch IH new a v b Hg ->.
    destruct (IH _ a v b Hg eq_refl)
      as (st_v & c_v & st_v' & blk & rest & Hb & Ha & Hexec & Hblk & Hr & _).
    exists st_v, c_v, st_v', blk, rest. split_and!; try done.
  - intros ch cs st st1 c st' Hch IH1 Hrest IH2 new a v b Hg ->.
    destruct (exec_grows _ _ _ _ _ Hch) as [new1 Hg1].
    destruct (exec_loop_grows _ _ _ _ _ Hrest) as [new2 Hg2].
    pose proof (grows_inj _ _ _ _ Hg (grows_trans _ _ _ _ _ Hg1 Hg2)) as Heq.
    apply app_eq_inv in Heq as [(k & Ha & Hk)|(k & Ha & Hk)].
    + destruct (IH2 _ k v b Hg2 Hk)
        as (st_v & c_v & st_v' & blk & rest & Hb & Hga & Hexec & Hblk & Hr & Hc).
      exists st_v, c_v, st_v', blk, rest. split; [done|]. split; [|done].
      rewrite Ha. by apply grows_trans with st1.
    + destruct k as [|k0 k]; simpl in Hk.
      * rewrite app_nil_r in Ha. subst new1.
        destruct (IH2 _ [] v b Hg2 (eq_sym Hk))
          as (st_v & c_v & st_v' & blk & rest & Hb & Hga & Hexec & Hblk & Hr & Hc).
        exists st_v, c_v, st_v', blk, rest. split; [done|]. split; [|done].
        rewrite <- (app_nil_r a). by apply grows_trans with st1.
      * injection Hk as <- ->.
        destruct (IH1 _ a v k Hg1 Ha)
          as (st_v & c_v & st_v' & blk & rest & Hb & Hga & Hexec & Hblk & _ & Hc).
        exists st_v, c_v, st_v', blk, (rest ++ new2).
        split; [by rewrite Hb, app_assoc|]. split; [done|]. split; [done|].
        split; [done|]. specialize (Hc eq_refl). subst c_v.
        split; [discriminate|done].
Qed.

Lemma app_in_order {A} (x y : A) (l l' : list A) :
  x ∈ l → y ∈ l' → ∃ l1 l2 l3, l ++ l' = l1 ++ x :: l2 ++ y :: l3.
Proof.
  intros (a & b & ->)%list_elem_of_split (c & d & ->)%list_elem_of_split.
  exists a, (b ++ c), d. by rewrite <- !app_assoc.
Qed.

Lemma children_at_first_occurrence gm t1 y t2 :
  module <$> default [] (outgoingConnections gm) = t1 ++ y :: t2 →
  y ∉ t1 →
  ∃ rest, children gm = new_Set t1 ++ y :: rest.
Proof.
  intros Heq Hy. unfold children. rewrite Heq.
  unfold new_Set at 1. rewrite foldl_app. fold (new_Set t1). simpl.
  assert (y ∉ new_Set t1) as Hy' by (by rewrite new_Set_elem).
  unfold Set_add at 2. rewrite decide_False by done.
  rewrite foldl_Set_add_first_seen, <- app_assoc. simpl. by eexists.
Qed.

Lemma run_siblings_in_order mm r out a n b gm t1 x t2 y :
  entered (run mm r out).2 = a ++ n :: b →
  mm !! n = Some gm →
  module <$> default [] (outgoingConnections gm) = t1 ++ x :: t2 →
  x ∉ t1 → y ∈ t2 → y ∉ t1 → x ≠ y →
  (∀ c, c ∈ t1 → ¬ reachable mm c y) →
  y ∈ b →
  ∃ e1 e2 e3, entered (run mm r out).2 = e1 ++ x :: e2 ++ y :: e3.
Proof.
  intros Heq Hgm Htargets Hx Hy2 Hy1 Hxy Hfar Hyb.
  pose proof (run_NoDup mm r out) as Hnd. rewrite Heq in Hnd.
  (* the call for [n] *)
  destruct (proj1 (exec_subcalls_any mm) _ _ _ _ (run_exec mm r out)
              _ a n b (run_grows mm r out) Heq)
    as (st_n & c_n & st_n' & blk & rest & Hb & Hga & Hcall & Hblk & Hrest & _).
  assert (∀ m, seen st_n m = true ↔ m ∈ a) as Hseen_n.
  { intros m. rewrite (grows_seen _ _ _ Hga m).
    unfold seen; simpl. rewrite lookup_empty. intuition congruence. }
  assert (seen st_n n = false) as Hn.
  { apply (grows_fresh _ _ _ Hblk). left. }
  inversion Hcall as [| |? ? gm' ? ? _ Hgm' Hloop]; subst; [congruence..|].
  rewrite Hgm in Hgm'. injection Hgm' as <-.
  destruct (exec_loop_grows _ _ _ _ _ Hloop) as [new' Hg'].
  pose proof (grows_inj _ _ _ _ Hblk
                (grows_trans _ _ _ _ _ (grows_enter n st_n Hn) Hg')) as Heqb.
  simpl in Heqb. injection Heqb as ->.
  (* the children up to [x], then [x] and the rest *)
  destruct (children_at_first_occurrence gm t1 x t2 Htargets Hx)
    as [rest_c Hchildren].
  assert (y ∈ children gm) as Hychild.
  { unfold children. rewrite new_Set_elem, Htargets.
    apply elem_of_app. right. by right. }
  assert (∀ v, v ∈ new_Set t1 → ¬ reachable mm v y) as Hfar'.
  { intros v Hv. apply Hfar. by apply new_Set_elem. }
  assert (y ∈ new') as Hynew.
  { apply elem_of_app in Hyb as [?|Hyrest]; [done|].
    destruct c_n.
    - pose proof (exec_loop_normal_seen _ _ _ _ y Hloop Hychild) as Hys.
      apply (grows_seen _ _ _ Hg'), or_comm in Hys as [?|Hys]; [done|].
      exfalso. apply seen_enter in Hys as [Hys| ->].
      + apply Hseen_n in Hys.
        apply NoDup_app in Hnd as (_ & Hdisj & _).
        apply (Hdisj y Hys). right. apply elem_of_app. by right.
      + apply NoDup_app in Hnd as (_ & _ & [Hnb _]%NoDup_cons).
        apply Hnb. apply elem_of_app. by right.
    - rewrite Hrest in Hyrest by done. by apply elem_of_nil in Hyrest.
    - by destruct (proj1 (exec_ends mm) _ _ _ _ Hcall). }
  rewrite Hchildren in Hloop.
  apply exec_loop_app in Hloop as [[-> Hthrow]|(st_a & Hl1 & Hxrest)].
  { (* a child before [x] throws: everything entered comes from them *)
    exfalso.
    destruct (exec_loop_new_reachable _ _ _ _ _ _ y Hthrow Hg' Hynew)
      as (ch & Hch & Hreach).
    by apply (Hfar' ch). }
  destruct (exec_loop_grows _ _ _ _ _ Hl1) as [new_a Hga1].
  destruct (exec_loop_grows _ _ _ _ _ Hxrest) as [new_b Hgb].
  pose proof (grows_inj _ _ _ _ Hg' (grows_trans _ _ _ _ _ Hga1 Hgb)) as ->.
  assert (y ∈ new_b) as Hyb'.
  { apply elem_of_app in Hynew as [Hya|?]; [|done]. exfalso.
    destruct (exec_loop_new_reachable _ _ _ _ _ _ y Hl1 Hga1 Hya)
      as (ch & Hch & Hreach).
    by apply (Hfar' ch). }
  rewrite Heq.
  destruct (seen st_a x) eqn:Hxa.
  - (* [x] was entered before its turn came *)
    assert (x ∈ a ++ n :: new_a) as Hxin.
    { apply (grows_seen _ _ _ Hga1) in Hxa as [Hxa|?];
        [|apply elem_of_app; right; by right].
      apply seen_enter in Hxa as [Hxa| ->].
      - apply elem_of_app. left. by apply Hseen_n.
      - apply elem_of_app. right. left. }
    replace (a ++ n :: (new_a ++ new_b) ++ rest)
      with ((a ++ n :: new_a) ++ (new_b ++ rest))
      by (by rewrite <- !app_assoc).
    apply app_in_order; [done|]. apply elem_of_app. by left.
  - (* [x] is entered at its turn *)
    destruct (exec_loop_head _ _ _ _ _ _ _ Hxrest Hgb Hxa) as [tb ->].
    apply elem_of_cons in Hyb' as [?|Hyb']; [congruence|].
    exists (a ++ n :: new_a).
    destruct (list_elem_of_split _ _ Hyb') as (t1' & t2' & ->).
    exists t1', (t2' ++ rest).
    repeat (rewrite <- ?app_assoc; simpl). done.
Qed.

(** C10: the children of a node are the distinct targets of its connections,
    each at the place of its first occurrence: a target that occurs first
    after the targets [t1] comes right after the distinct members of [t1].
    The loop of [traverse] calls the children in this order, which shows in
    the output: when [x] occurs among the targets of an entered node [n]
    before [y] does, and [y] is entered after [n] and cannot be reached from
    the targets that come before [x], then [x] is entered, and its label
    written, before [y]. *)
Theorem children_first_seen_order gm :
  children gm = first_seen (module <$> default [] (outgoingConnections gm))
  ∧ (∀ t1 y t2,
       module <$> default [] (outgoingConnections gm) = t1 ++ y :: t2 →
       y ∉ t1 →
       ∃ rest, children gm = new_Set t1 ++ y :: rest
               ∧ NoDup (new_Set t1) ∧ ∀ x, x ∈ new_Set t1 ↔ x ∈ t1)
  ∧ (∀ mm fuel n st,
       seen st n = false → mm !! n = Some gm →
       traverse mm (S fuel) n st
       = for_of (traverse mm fuel) (children gm) (enter n st))
  ∧ (∀ mm r out a n b t1 x t2 y,
       mm !! n = Some gm →
       entered (run mm r out).2 = a ++ n :: b →
       module <$> default [] (outgoingConnections gm) = t1 ++ x :: t2 →
       x ∉ t1 → y ∈ t2 → y ∉ t1 → x ≠ y →
       (∀ c, c ∈ t1 → ¬ reachable mm c y) →
       y ∈ b →
       ∃ e1 e2 e3,
         entered (run mm r out).2 = e1 ++ x :: e2 ++ y :: e3
         ∧ console (run mm r out).2
           = out ++ (label <$> e1) ++ label x :: (label <$> e2)
                 ++ label y :: (label <$> e3)).
Proof.
  split; [apply new_Set_first_seen|]. split; [|split].
  - intros t1 y t2 Heq Hy.
    destruct (children_at_first_occurrence gm t1 y t2 Heq Hy) as [rest Hrest].
    exists rest. split; [done|]. split; [apply new_Set_NoDup|].
    intros x. apply new_Set_elem.
  - intros mm fuel n st Hn Hgm. simpl. by rewrite Hn, Hgm.
  - intros mm r out a n b t1 x t2 y Hgm Heq Ht Hx Hy2 Hy1 Hxy Hfar Hyb.
    destruct (run_siblings_in_order mm r out a n b gm t1 x t2 y
                Heq Hgm Ht Hx Hy2 Hy1 Hxy Hfar Hyb) as (e1 & e2 & e3 & He).
    exists e1, e2, e3. split; [done|].
    by rewrite run_console, He, !fmap_app, !fmap_cons, !fmap_app.
Qed.

Lemma children_first_seen_order_witness :
  children (mgm mA [mB; mC; mB; mD; mC]) = [mB; mC; mD]
  ∧ (∃ rest, children (mgm mA [mB; mC; mB; mD; mC])
             = new_Set [mB; mC; mB] ++ mD :: rest)
  ∧ diamond !! mA = Some (mgm mA [mB; mC; mB])
  ∧ ∃ e1 e2 e3,
      entered (run diamond null []).2 = e1 ++ mB :: e2 ++ mC :: e3.
Proof.
  split; [reflexivity|]. split.
  { destruct (children_first_seen_order (mgm mA [mB; mC; mB; mD; mC]))
      as (_ & Hfirst & _).
    destruct (Hfirst [mB; mC; mB] mD [mC]) as (rest & Hrest & _).
    - reflexivity.
    - apply (bool_decide_unpack _). vm_compute. exact I.
    - by exists rest. }
  split; [reflexivity|].
  destruct (children_first_seen_order (mgm mA [mB; mC; mB]))
    as (_ & _ & _ & Horder).
  destruct (Horder diamond null [] [null] mA [mB; mD; mC] [] mB [mC; mB] mC)
    as (e1 & e2 & e3 & He & _).
  - reflexivity.
  - vm_compute. reflexivity.
  - reflexivity.
  - apply not_elem_of_nil.
  - left.
  - apply not_elem_of_nil.
  - discriminate.
  - intros c Hc. by apply elem_of_nil in Hc.
  - right. right. left.
  - by exists e1, e2, e3.
Defined.

(** ** Further properties of the traversal *)

Lemma exec_normal_entries mm n st st' :
  exec mm n st Normal st' →
  ∃ new, entered st' = entered st ++ new
         ∧ ∀ x, x ∈ new → is_Some (mm !! x).
Proof.
  intros (new & Hg & _ & _ & Hnormal & _)%exec_post.
  exists new. split; [apply (grows_entered _ _ _ Hg)|].
  intros x Hx. by apply (Hnormal eq_refl).
Qed.

Lemma exec_throw_last mm :
  (∀ n st c st', exec mm n st c st' → c = TypeError →
     ∃ l m, entered st' = entered st ++ l ++ [m] ∧ mm !! m = None
            ∧ ∀ x, x ∈ l → is_Some (mm !! x))
  ∧ (∀ cs st c st', exec_loop mm cs st c st' → c = TypeError →
       ∃ l m, entered st' = entered st ++ l ++ [m] ∧ mm !! m = None
              ∧ ∀ x, x ∈ l → is_Some (mm !! x)).
Proof.
  apply exec_mutind.
  - discriminate.
  - intros n st _ Hnone _. exists [], n. split; [done|]. split; [done|].
    intros x Hx. by apply elem_of_nil in Hx.
  - intros n st gm c st' _ Hgm _ IH Hc.
    destruct (IH Hc) as (l & m & He & Hm & Hl).
    exists (n :: l), m. split.
    { rewrite He. simpl. by rewrite <- app_assoc. }
    split; [done|].
    intros x [->|Hx]%elem_of_cons; [by rewrite Hgm|by apply Hl].
  - discriminate.
  - intros ch cs st st' _ IH _. by apply IH.
  - intros ch cs st st1 c st' Hch _ _ IH Hc.
    destruct (IH Hc) as (l & m & He & Hm & Hl).
    destruct (exec_normal_entries _ _ _ _ Hch) as (new & He1 & Hnew).
    exists (new ++ l), m. split.
    { by rewrite He, He1, <- !app_assoc. }
    split; [done|].
    intros x [Hx|Hx]%elem_of_app; [by apply Hnew|by apply Hl].
Qed.

Lemma path_last_edge mm r p x :
  path mm r p x → r ≠ x → ∃ y, y ≠ x ∧ y ∈ p ∧ edge mm y x.
Proof.
  induction 1 as [x|r y p x Hry Hp IH]; intros Hne; [done|].
  destruct (decide (y = x)) as [->|Hyx].
  - exists r. split; [done|]. split; [left|done].
  - destruct (IH Hyx) as (u & Hu & Hin & Hedge).
    exists u. split; [done|]. split; [by right|done].
Qed.

(** Only nodes that are reachable from the root are entered, whether the
    traversal ends normally or in a TypeError; so every line written is the
    label of a reachable node. *)
Theorem entered_only_reachable mm r out :
  (∀ v, v ∈ entered (run mm r out).2 → reachable mm r v)
  ∧ (∀ line, line ∈ drop (length out) (console (run mm r out).2) →
             ∃ v, reachable mm r v ∧ line = label v).
Proof.
  split; [apply run_entered_reachable|].
  intros line. rewrite run_console, drop_app_length.
  intros (v & -> & Hv)%list_elem_of_fmap.
  exists v. split; [|done]. by apply run_entered_reachable in Hv.
Qed.

Lemma entered_only_reachable_witness :
  mD ∈ entered (run diamond null []).2 ∧ reachable diamond null mD.
Proof.
  assert (mD ∈ entered (run diamond null []).2) as Hin.
  { vm_compute. right. right. right. left. }
  split; [exact Hin|].
  exact (proj1 (entered_only_reachable diamond null []) mD Hin).
Defined.

(** When the traversal ends in a TypeError, the node entered last (whose
    label is the last line written) is the one without an entry in the module
    map, it is reachable from the root, and every node entered before it has
    an entry: nothing is entered or written after the failing lookup. *)
Theorem type_error_at_last_entered mm r out :
  (run mm r out).1 = TypeError →
  ∃ l m, entered (run mm r out).2 = l ++ [m]
         ∧ console (run mm r out).2 = out ++ (label <$> l) ++ [label m]
         ∧ mm !! m = None ∧ reachable mm r m
         ∧ seen (run mm r out).2 m = true
         ∧ ∀ x, x ∈ l → is_Some (mm !! x).
Proof.
  intros Hc.
  destruct (proj1 (exec_throw_last mm) _ _ _ _ (run_exec mm r out) Hc)
    as (l & m & He & Hm & Hl).
  simpl in He. exists l, m. split; [done|]. split.
  { by rewrite run_console, He, fmap_app. }
  split; [done|].
  assert (m ∈ entered (run mm r out).2) as Hin.
  { rewrite He. apply elem_of_app. right. left. }
  split; [by apply run_entered_reachable in Hin|].
  split; [by apply run_seen|done].
Qed.

Lemma type_error_at_last_entered_witness :
  (run dangling null []).1 = TypeError
  ∧ ∃ l m, entered (run dangling null []).2 = l ++ [m]
           ∧ dangling !! m = None.
Proof.
  assert ((run dangling null []).1 = TypeError) as Hc
    by (vm_compute; reflexivity).
  split; [exact Hc|].
  destruct (type_error_at_last_entered dangling null [] Hc)
    as (l & m & He & _ & Hm & _).
  exists l, m. split; [exact He|exact Hm].
Defined.

Lemma length_le_size_entries (mm : gmap Node ModuleGraphModule) (l : list Node) :
  NoDup l → (∀ x, x ∈ l → is_Some (mm !! x)) → length l ≤ size mm.
Proof.
  intros Hnd Hl. rewrite <- size_dom.
  rewrite <- (size_list_to_set (C := gset Node) l Hnd).
  apply subseteq_size. intros x Hx%elem_of_list_to_set.
  by apply elem_of_dom, Hl.
Qed.

(** The traversal writes one line per node it enters, and it enters at most
    as many nodes as the module map has entries, plus one for the node whose
    lookup failed if it ends in a TypeError. *)
Theorem output_length_bound mm r out :
  length (console (run mm r out).2)
  = length out + length (entered (run mm r out).2)
  ∧ 1 ≤ length (entered (run mm r out).2) ≤ S (size mm)
  ∧ ((run mm r out).1 = Normal →
     length (entered (run mm r out).2) ≤ size mm).
Proof.
  split.
  { by rewrite run_console, length_app, length_fmap. }
  pose proof (run_NoDup mm r out) as Hnd.
  pose proof (run_exec mm r out) as Hexec.
  pose proof (run_terminates mm r out) as Hterm.
  destruct (run_head mm r out) as [rest Hrest].
  assert (1 ≤ length (entered (run mm r out).2)) as Hone
    by (rewrite Hrest; simpl; lia).
  destruct ((run mm r out).1) eqn:Hc; [| |done].
  - apply exec_normal_entries in Hexec as (new & He & Hnew). simpl in He.
    rewrite <- He in Hnew.
    pose proof (length_le_size_entries mm _ Hnd Hnew). split; [lia|done].
  - apply (proj1 (exec_throw_last mm)) in Hexec as (l & m & He & _ & Hl);
      [|done].
    simpl in He. rewrite He in Hnd |- *.
    apply NoDup_app in Hnd as (Hndl & _ & _).
    pose proof (length_le_size_entries mm _ Hndl Hl).
    rewrite length_app. simpl. split; [lia|discriminate].
Qed.

Lemma output_length_bound_witness :
  (run diamond null []).1 = Normal
  ∧ length (entered (run diamond null []).2) ≤ size diamond.
Proof.
  assert ((run diamond null []).1 = Normal) as Hc
    by (vm_compute; reflexivity).
  split; [exact Hc|].
  exact (proj2 (proj2 (output_length_bound diamond null [])) Hc).
Defined.

Lemma exec_region mm n st st' :
  exec mm n st Normal st' →
  ∀ v, seen st v = false ∧ seen st' v = true
       ↔ ∃ p, path mm n p v ∧ ∀ y, y ∈ p → seen st y = false.
Proof.
  intros (new & Hg & _ & Hpath & Hnormal & _)%exec_post v.
  destruct (Hnormal eq_refl) as [Hn Hcl].
  assert (∀ x, seen st x = false → seen st' x = true → x ∈ new) as Hnew.
  { intros x Hx Hx'.
    apply (grows_seen _ _ _ Hg) in Hx' as [?|?]; [congruence|done]. }
  split.
  - intros [Hv Hv']. apply Hnew in Hv'; [|done].
    apply list_elem_of_split in Hv' as (a & b & ->).
    destruct (Hpath a v b eq_refl) as (p & Hp & Hsub).
    exists p. split; [done|]. intros y Hy. apply (grows_fresh _ _ _ Hg).
    apply Hsub in Hy. rewrite elem_of_app in Hy |- *.
    destruct Hy as [Hy|Hy]; [by left|right].
    apply list_elem_of_singleton in Hy as ->. left.
  - intros (p & Hp & Hunseen). clear Hpath Hnormal.
    induction Hp as [x|x y p z Hxy Hp IH].
    + split; [apply Hunseen; left|done].
    + apply IH.
      * apply (Hcl x); [|done]. apply Hnew; [|done]. apply Hunseen. left.
      * intros u Hu. apply Hunseen. by right.
Qed.

(** A call that returns marks exactly the nodes that can be reached from its
    node along nodes that were unmarked when it was called: nodes marked
    before are never crossed, and nothing else is left out. *)
Theorem call_marks_unmarked_region mm fuel n st st' :
  traverse mm fuel n st = (Normal, st') →
  ∀ v, seen st v = false ∧ seen st' v = true
       ↔ ∃ p, path mm n p v ∧ ∀ y, y ∈ p → seen st y = false.
Proof.
  intros Hrun. apply exec_region. by apply traverse_exec in Hrun.
Qed.

Lemma call_marks_unmarked_region_witness :
  seen (enter mB (fresh [])) mD = false
  ∧ seen (traverse diamond 6 mA (enter mB (fresh []))).2 mD = true
  ∧ entered (traverse diamond 6 mA (enter mB (fresh []))).2
    = [mB; mA; mC; mD].
Proof.
  assert (traverse diamond 6 mA (enter mB (fresh []))
          = (Normal, (traverse diamond 6 mA (enter mB (fresh []))).2)) as Hrun
    by (vm_compute; reflexivity).
  assert (edge diamond mA mC) as HAC.
  { eapply edge_lookup; [reflexivity|]. vm_compute. right. left. }
  assert (edge diamond mC mD) as HCD.
  { eapply edge_lookup; [reflexivity|]. vm_compute. left. }
  destruct (proj2 (call_marks_unmarked_region diamond 6 mA _ _ Hrun mD))
    as [Hbefore Hafter].
  { exists [mA; mC; mD]. split.
    - apply path_step with mC; [exact HAC|].
      apply path_step with mD; [exact HCD|]. apply path_here.
    - intros y Hy.
      apply elem_of_cons in Hy as [->|Hy]; [reflexivity|].
      apply elem_of_cons in Hy as [->|Hy]; [reflexivity|].
      apply elem_of_cons in Hy as [->|Hy]; [reflexivity|].
      by apply elem_of_nil in Hy. }
  split; [exact Hbefore|]. split; [exact Hafter|].
  vm_compute. reflexivity.
Defined.

(** Every node that is entered, other than the root, is the target of a
    connection of a node entered before it: the output lists each module
    after one that refers to it. *)
Theorem entered_after_a_parent mm r out a v b :
  entered (run mm r out).2 = a ++ v :: b → v ≠ r →
  ∃ u, u ∈ a ∧ edge mm u v.
Proof.
  intros Heq Hne.
  destruct (run_paths mm r out a v b Heq) as (p & Hp & Hsub).
  destruct (path_last_edge mm r p v Hp) as (u & Hu & Hin & Hedge);
    [congruence|].
  exists u. split; [|done].
  apply Hsub, elem_of_app in Hin as [?|Hin]; [done|].
  apply list_elem_of_singleton in Hin. congruence.
Qed.

Lemma entered_after_a_parent_witness :
  entered (run diamond null []).2 = [null; mA; mB] ++ mD :: [mC]
  ∧ mD ≠ null
  ∧ ∃ u, u ∈ [null; mA; mB] ∧ edge diamond u mD.
Proof.
  assert (entered (run diamond null []).2 = [null; mA; mB] ++ mD :: [mC])
    as Heq by (vm_compute; reflexivity).
  assert (mD ≠ null) as Hne by discriminate.
  split; [exact Heq|]. split; [exact Hne|].
  exact (entered_after_a_parent diamond null [] _ _ _ Heq Hne).
Defined.

Lemma reachable_same_edges mm mm' r v :
  (∀ x y, edge mm x y → edge mm' x y) →
  reachable mm r v → reachable mm' r v.
Proof.
  intros Hsub. induction 1 as [x|x y z Hxy _ IH]; [apply rtc_refl|].
  apply rtc_l with y; [by apply Hsub|done].
Qed.

(** When two module maps have the same connections between nodes, listed in
    whatever order and however often, and every reachable node has an entry
    in both, the two traversals enter the same nodes: the outputs differ at
    most in the order of the lines. *)
Theorem entered_up_to_connection_order mm mm' r out out' :
  (∀ u v, edge mm u v ↔ edge mm' u v) →
  closed_from mm r → closed_from mm' r →
  entered (run mm r out).2 ≡ₚ entered (run mm' r out').2
  ∧ drop (length out) (console (run mm r out).2)
    ≡ₚ drop (length out') (console (run mm' r out').2).
Proof.
  intros Hedges Hclosed Hclosed'.
  assert (entered (run mm r out).2 ≡ₚ entered (run mm' r out').2) as Hperm.
  { apply NoDup_Permutation; [apply run_NoDup|apply run_NoDup|].
    intros x. split; intros Hx%run_entered_reachable.
    - apply run_normal_complete; [by apply run_normal_closed|].
      apply (reachable_same_edges mm); [|done]. intros ? ?. apply Hedges.
    - apply run_normal_complete; [by apply run_normal_closed|].
      apply (reachable_same_edges mm'); [|done]. intros ? ?. apply Hedges. }
  split; [done|].
  rewrite !run_console, !drop_app_length. by apply fmap_Permutation.
Qed.

Lemma entered_up_to_connection_order_witness :
  entered (run diamond null []).2 = [null; mA; mB; mD; mC]
  ∧ entered (run diamond_reordered null []).2 = [null; mA; mC; mD; mB]
  ∧ entered (run diamond null []).2
    ≡ₚ entered (run diamond_reordered null []).2.
Proof.
  assert (∀ u v, edge diamond u v ↔ edge diamond_reordered u v) as Hedges.
  { intros u v. rewrite !edge_children. unfold diamond_reordered.
    destruct (decide (u = mA)) as [->|Hne].
    - rewrite lookup_insert_eq.
      change (diamond !! mA) with (Some (mgm mA [mB; mC; mB])).
      split; intros (gm & Hgm & Hv); injection Hgm as <-; eexists;
        (split; [reflexivity|]).
      + change (v ∈ [mB; mC]) in Hv. change (v ∈ [mC; mB]).
        rewrite !elem_of_cons in Hv |- *. tauto.
      + change (v ∈ [mC; mB]) in Hv. change (v ∈ [mB; mC]).
        rewrite !elem_of_cons in Hv |- *. tauto.
    - by rewrite lookup_insert_ne. }
  assert (closed_from diamond null) as Hclosed.
  { apply (run_normal_closed diamond null []). vm_compute. reflexivity. }
  assert (closed_from diamond_reordered null) as Hclosed'.
  { apply (run_normal_closed diamond_reordered null []).
    vm_compute. reflexivity. }
  split; [vm_compute; reflexivity|]. split; [vm_compute; reflexivity|].
  exact (proj1 (entered_up_to_connection_order diamond diamond_reordered
                  null [] [] Hedges Hclosed Hclosed')).
Defined.

Lemma for_of_ext (body body' : Node → State → completion * State) cs :
  (∀ ch st, ch ∈ cs → body ch st = body' ch st) →
  ∀ st, for_of body cs st = for_of body' cs st.
Proof.
  induction cs as [|ch cs IH]; intros Hbody st; simpl; [done|].
  rewrite <- (Hbody ch st) by left.
  destruct (body ch st) as [[] st1]; try done.
  apply IH. intros ch' st' Hch'. apply Hbody. by right.
Qed.

Lemma traverse_agree mm mm' fuel : ∀ n st,
  (∀ v, reachable mm n v → mm' !! v = mm !! v) →
  traverse mm' fuel n st = traverse mm fuel n st.
Proof.
  induction fuel as [|fuel IH]; intros n st Hagree; simpl; [done|].
  destruct (seen st n); [done|].
  rewrite (Hagree n) by apply rtc_refl.
  destruct (mm !! n) as [gm|] eqn:Hgm; [|done].
  apply for_of_ext. intros ch st1 Hch. apply IH.
  intros v Hv. apply Hagree. apply rtc_l with ch; [|done].
  by apply (edge_lookup mm n ch gm).
Qed.

(** The traversal reads only the entries of nodes reachable from the root:
    two module maps that agree on them (entry for entry, missing entries
    included) give the same completion, the same marks and the same output,
    whatever else they hold. *)
Theorem run_reads_reachable_entries_only mm mm' r out :
  (∀ v, reachable mm r v → mm' !! v = mm !! v) →
  run mm' r out = run mm r out.
Proof.
  intros Hagree.
  rewrite <- (run_at_fuel mm r out (S (size mm `max` size mm'))) by lia.
  rewrite <- (run_at_fuel mm' r out (S (size mm `max` size mm'))) by lia.
  by apply traverse_agree.
Qed.

Lemma run_reads_reachable_entries_only_witness :
  diamond_plus !! mE = Some (mgm mE [mA]) ∧ diamond !! mE = None
  ∧ run diamond_plus null [] = run diamond null [].
Proof.
  split; [reflexivity|]. split; [reflexivity|].
  apply (run_reads_reachable_entries_only diamond diamond_plus null []).
  intros v Hv. unfold diamond_plus. apply lookup_insert_ne. intros <-.
  apply (run_normal_complete diamond null []) in Hv;
    [|vm_compute; reflexivity].
  vm_compute in Hv.
  repeat (apply elem_of_cons in Hv as [Hv|Hv]; [discriminate Hv|]).
  by apply elem_of_nil in Hv.
Defined.

Lemma for_of_entered_prefix (body : Node → State → completion * State) cs :
  (∀ ch st, entered st `prefix_of` entered (body ch st).2) →
  ∀ st, entered st `prefix_of` entered (for_of body cs st).2.
Proof.
  intros Hbody. induction cs as [|ch cs IH]; intros st; simpl; [done|].
  pose proof (Hbody ch st) as H1.
  destruct (body ch st) as [[] st1]; simpl in *; try done.
  by etrans.
Qed.

Lemma traverse_entered_prefix mm fuel : ∀ n st,
  entered st `prefix_of` entered (traverse mm fuel n st).2.
Proof.
  induction fuel as [|fuel IH]; intros n st; simpl; [done|].
  destruct (seen st n); [done|].
  assert (entered st `prefix_of` entered (enter n st)) by (by eexists).
  destruct (mm !! n); [|done].
  etrans; [done|]. by apply for_of_entered_prefix.
Qed.

Lemma for_of_subseteq mm mm' fuel cs :
  (∀ n st,
     (traverse mm fuel n st).1 ≠ OutOfFuel →
     (traverse mm' fuel n st).1 ≠ OutOfFuel →
     ((traverse mm fuel n st).1 = Normal →
      traverse mm' fuel n st = traverse mm fuel n st)
     ∧ entered (traverse mm fuel n st).2
       `prefix_of` entered (traverse mm' fuel n st).2) →
  ∀ st,
    (for_of (traverse mm fuel) cs st).1 ≠ OutOfFuel →
    (for_of (traverse mm' fuel) cs st).1 ≠ OutOfFuel →
    ((for_of (traverse mm fuel) cs st).1 = Normal →
     for_of (traverse mm' fuel) cs st = for_of (traverse mm fuel) cs st)
    ∧ entered (for_of (traverse mm fuel) cs st).2
      `prefix_of` entered (for_of (traverse mm' fuel) cs st).2.
Proof.
  intros Hbody. induction cs as [|ch cs IH]; intros st; simpl; [done|].
  specialize (Hbody ch st).
  destruct (traverse mm fuel ch st) as [c1 s1] eqn:E1.
  destruct (traverse mm' fuel ch st) as [c1' s1'] eqn:E1'.
  simpl in Hbody. intros H1 H1'.
  destruct c1; [| |done].
  - (* the child returns on [mm] *)
    destruct c1'; [| |done].
    + destruct Hbody as [Heq _]; [done|done|].
      specialize (Heq eq_refl). injection Heq as ->. by apply IH.
    + destruct Hbody as [Heq _]; [done|done|]. by specialize (Heq eq_refl).
  - (* the child throws on [mm] *)
    simpl. split; [done|].
    destruct c1'; [| |done].
    + destruct Hbody as [_ Hpre]; [done|done|].
      etrans; [exact Hpre|].
      apply for_of_entered_prefix. intros; apply traverse_entered_prefix.
    + by destruct Hbody as [_ Hpre].
Qed.

Lemma traverse_subseteq mm mm' fuel : mm ⊆ mm' → ∀ n st,
  (traverse mm fuel n st).1 ≠ OutOfFuel →
  (traverse mm' fuel n st).1 ≠ OutOfFuel →
  ((traverse mm fuel n st).1 = Normal →
   traverse mm' fuel n st = traverse mm fuel n st)
  ∧ entered (traverse mm fuel n st).2
    `prefix_of` entered (traverse mm' fuel n st).2.
Proof.
  intros Hsub. induction fuel as [|fuel IH]; intros n st; simpl; [done|].
  destruct (seen st n); [done|].
  destruct (mm !! n) as [gm|] eqn:Hgm.
  - rewrite (lookup_weaken _ _ _ _ Hgm Hsub). by apply for_of_subseteq.
  - simpl. intros _ _. split; [done|].
    destruct (mm' !! n); [|done].
    apply for_of_entered_prefix. intros; apply traverse_entered_prefix.
Qed.

(** Adding entries to the module map never changes what a traversal did
    before it failed: the nodes entered and the lines written on the smaller
    map are the first ones entered and written on the larger map, and a
    traversal that ended normally is not changed at all. *)
Theorem added_entries_extend_output mm mm' r out :
  mm ⊆ mm' →
  entered (run mm r out).2 `prefix_of` entered (run mm' r out).2
  ∧ console (run mm r out).2 `prefix_of` console (run mm' r out).2
  ∧ ((run mm r out).1 = Normal → run mm' r out = run mm r out).
Proof.
  intros Hsub.
  pose proof (run_terminates mm r out) as Hterm.
  pose proof (run_terminates mm' r out) as Hterm'.
  pose proof (traverse_subseteq mm mm' (S (size mm `max` size mm')) Hsub
                r (fresh out)) as Hcmp.
  rewrite !run_at_fuel in Hcmp by lia.
  destruct (Hcmp Hterm Hterm') as [Hnormal Hprefix].
  split; [done|]. split; [|done].
  rewrite !run_console. destruct Hprefix as [k ->].
  exists (label <$> k). by rewrite fmap_app, app_assoc.
Qed.

Lemma added_entries_extend_output_witness :
  dangling ⊆ dangling_repaired
  ∧ console (run dangling null []).2 = ["ROOT "; "a.js"]%string
  ∧ console (run dangling_repaired null []).2
    = ["ROOT "; "a.js"; "b.js"]%string
  ∧ console (run dangling null []).2
    `prefix_of` console (run dangling_repaired null []).2.
Proof.
  assert (dangling ⊆ dangling_repaired) as Hsub.
  { apply insert_subseteq. reflexivity. }
  split; [exact Hsub|].
  split; [vm_compute; reflexivity|]. split; [vm_compute; reflexivity|].
  exact (proj1 (proj2 (added_entries_extend_output dangling dangling_repaired
                         null [] Hsub))).
Defined.

Lemma first_seen_length l : length (first_seen l) ≤ length l.
Proof.
  induction l as [|x l IH]; simpl; [done|].
  pose proof (length_filter (λ y, y ≠ x) (first_seen l)). lia.
Qed.

Lemma filter_all {A} (P : A → Prop) `{∀ x, Decision (P x)} (l : list A) :
  (∀ x, x ∈ l → P x) → filter P l = l.
Proof.
  induction l as [|x l IH]; intros Hall; [done|].
  rewrite filter_cons_True by (apply Hall; left).
  f_equal. apply IH. intros y Hy. apply Hall. by right.
Qed.

Lemma first_seen_NoDup_id l : NoDup l → first_seen l = l.
Proof.
  induction 1 as [|x l Hx _ IH]; simpl; [done|].
  rewrite IH. f_equal. apply filter_all. intros y Hy ->. done.
Qed.

(** The children of a node are never more than its connections, and they are
    the connection targets themselves, in connection order, exactly when no
    two connections have the same target. *)
Theorem children_of_distinct_targets gm :
  length (children gm)
  ≤ length (module <$> default [] (outgoingConnections gm))
  ∧ (NoDup (module <$> default [] (outgoingConnections gm))
     ↔ children gm = module <$> default [] (outgoingConnections gm)).
Proof.
  unfold children. rewrite new_Set_first_seen.
  split; [apply first_seen_length|]. split.
  - apply first_seen_NoDup_id.
  - intros Heq. rewrite <- Heq, <- new_Set_first_seen. apply new_Set_NoDup.
Qed.

Lemma children_of_distinct_targets_witness :
  NoDup [mB; mC; mD] ∧ children (mgm mA [mB; mC; mD]) = [mB; mC; mD].
Proof.
  assert (NoDup [mB; mC; mD]) as Hnd.
  { apply (bool_decide_unpack _). vm_compute. exact I. }
  split; [exact Hnd|].
  exact (proj1 (proj2 (children_of_distinct_targets (mgm mA [mB; mC; mD])))
           Hnd).
Defined.

(** Every node entered by a call that returns was entered by a call of its
    own, which returned too; what that call entered follows the node as one
    block. *)
Lemma exec_subcalls mm :
  (∀ n st c st', exec mm n st c st' → c = Normal →
     ∀ new a v b, grows st new st' → new = a ++ v :: b →
       ∃ st_v st_v' blk rest,
         b = blk ++ rest ∧ grows st a st_v
         ∧ exec mm v st_v Normal st_v' ∧ grows st_v (v :: blk) st_v')
  ∧ (∀ cs st c st', exec_loop mm cs st c st' → c = Normal →
       ∀ new a v b, grows st new st' → new = a ++ v :: b →
         ∃ st_v st_v' blk rest,
           b = blk ++ rest ∧ grows st a st_v
           ∧ exec mm v st_v Normal st_v' ∧ grows st_v (v :: blk) st_v').
Proof.
  apply exec_mutind.
  - intros n st _ _ new a v b Hg ->.
    pose proof (grows_inj _ _ _ _ Hg (grows_refl st)) as Hnil.
    by destruct a.
  - discriminate.
  - intros n st gm c st' Hn Hgm Hloop IH -> new a v b Hg ->.
    destruct (exec_loop_grows _ _ _ _ _ Hloop) as [new' Hg'].
    pose proof (grows_trans _ _ _ _ _ (grows_enter n st Hn) Hg') as Hg0.
    pose proof (grows_inj _ _ _ _ Hg Hg0) as Heq. simpl in Heq.
    destruct a as [|a0 a]; simpl in Heq.
    + injection Heq as -> ->.
      exists st, st', new', []. split; [by rewrite app_nil_r|].
      split; [apply grows_refl|]. split; [|done].
      by apply exec_children with gm.
    + injection Heq as -> Heq.
      destruct (IH eq_refl _ a v b Hg' (eq_sym Heq))
        as (st_v & st_v' & blk & rest & Hb & Ha & Hexec & Hblk).
      exists st_v, st_v', blk, rest. split; [done|]. split; [|done].
      apply (grows_trans _ [n] (enter n st)); [by apply grows_enter|done].
  - intros st _ new a v b Hg ->.
    pose proof (grows_inj _ _ _ _ Hg (grows_refl st)) as Hnil.
    by destruct a.
  - discriminate.
  - intros ch cs st st1 c st' Hch IH1 Hrest IH2 -> new a v b Hg ->.
    destruct (exec_grows _ _ _ _ _ Hch) as [new1 Hg1].
    destruct (exec_loop_grows _ _ _ _ _ Hrest) as [new2 Hg2].
    pose proof (grows_inj _ _ _ _ Hg (grows_trans _ _ _ _ _ Hg1 Hg2)) as Heq.
    apply app_eq_inv in Heq as [(k & Ha & Hk)|(k & Ha & Hk)].
    + destruct (IH2 eq_refl _ k v b Hg2 Hk)
        as (st_v & st_v' & blk & rest & Hb & Hga & Hexec & Hblk).
      exists st_v, st_v', blk, rest. split; [done|]. split; [|done].
      rewrite Ha. by apply grows_trans with st1.
    + destruct k as [|k0 k]; simpl in Hk.
      * rewrite app_nil_r in Ha. subst new1.
        destruct (IH2 eq_refl _ [] v b Hg2 (eq_sym Hk))
          as (st_v & st_v' & blk & rest & Hb & Hga & Hexec & Hblk).
        exists st_v, st_v', blk, rest. split; [done|]. split; [|done].
        rewrite <- (app_nil_r a). by apply grows_trans with st1.
      * injection Hk as <- ->.
        destruct (IH1 eq_refl _ a v k Hg1 Ha)
          as (st_v & st_v' & blk & rest & Hb & Hga & Hexec & Hblk).
        exists st_v, st_v', blk, (rest ++ new2).
        split; [by rewrite Hb, app_assoc|done].
Qed.

(** In a traversal that ends normally, each entered node is followed by one
    block of nodes, those entered during its own call, and the node with its
    block are exactly the nodes that can be reached from it without passing
    through a node entered before it: a module shared by several others is
    listed under the first one that reaches it. *)
Theorem entered_block mm r out a v b :
  (run mm r out).1 = Normal →
  entered (run mm r out).2 = a ++ v :: b →
  ∃ blk rest,
    b = blk ++ rest
    ∧ ∀ x, x ∈ v :: blk ↔ ∃ p, path mm v p x ∧ ∀ y, y ∈ p → y ∉ a.
Proof.
  intros Hc Heq.
  pose proof (run_exec mm r out) as Hexec. rewrite Hc in Hexec.
  destruct (proj1 (exec_subcalls mm) _ _ _ _ Hexec eq_refl _ a v b
              (run_grows mm r out) Heq)
    as (st_v & st_v' & blk & rest & Hb & Hga & Hcall & Hblk).
  exists blk, rest. split; [done|].
  assert (∀ y, seen st_v y = false ↔ y ∉ a) as Hseen.
  { intros y. rewrite <- not_true_iff_false, (grows_seen _ _ _ Hga y).
    unfold seen; simpl. rewrite lookup_empty. intuition congruence. }
  intros x. trans (seen st_v x = false ∧ seen st_v' x = true).
  - split.
    + intros Hx. split; [by apply (grows_fresh _ _ _ Hblk)|].
      apply (grows_seen _ _ _ Hblk). by right.
    + intros [Hx Hx']. apply (grows_seen _ _ _ Hblk) in Hx' as [?|?];
        [congruence|done].
  - rewrite (exec_region mm v st_v st_v' Hcall x).
    split; intros (p & Hp & Hall); exists p; (split; [done|]);
      intros y Hy; apply Hseen; by apply Hall.
Qed.

Lemma entered_block_witness :
  (run diamond null []).1 = Normal
  ∧ entered (run diamond null []).2 = [null; mA] ++ mB :: [mD; mC]
  ∧ ∃ blk rest,
      [mD; mC] = blk ++ rest
      ∧ ∀ x, x ∈ mB :: blk
             ↔ ∃ p, path diamond mB p x ∧ ∀ y, y ∈ p → y ∉ [null; mA].
Proof.
  assert ((run diamond null []).1 = Normal) as Hc
    by (vm_compute; reflexivity).
  assert (entered (run diamond null []).2 = [null; mA] ++ mB :: [mD; mC])
    as Heq by (vm_compute; reflexivity).
  split; [exact Hc|]. split; [exact Heq|].
  exact (entered_block diamond null [] [null; mA] mB [mD; mC] Hc Heq).
Defined.

Section LoopOverTargets.

Variable body : Node → State → completion * State.
Hypothesis body_seen : ∀ x st, seen st x = true → body x st = (Normal, st).
Hypothesis body_marks : ∀ x st st', body x st = (Normal, st') → seen st' x = true.
Hypothesis body_mono :
  ∀ x st m, seen st m = true → seen (body x st).2 m = true.

Lemma for_of_skip_seen x l : ∀ st,
  seen st x = true →
  for_of body (filter (λ y, y ≠ x) l) st = for_of body l st.
Proof.
  induction l as [|y l IH]; intros st Hx; [done|].
  destruct (decide (y = x)) as [->|Hne].
  - rewrite filter_cons_False by (intros Hxx; by apply Hxx).
    simpl. rewrite body_seen by done. by apply IH.
  - rewrite filter_cons_True by done. simpl.
    pose proof (body_mono y st x Hx) as Hx'.
    destruct (body y st) as [[] st1]; try done. by apply IH.
Qed.

Lemma for_of_first_seen l : ∀ st,
  for_of body (first_seen l) st = for_of body l st.
Proof.
  induction l as [|x l IH]; intros st; simpl; [done|].
  destruct (body x st) as [[] st1] eqn:Hx; try done.
  rewrite for_of_skip_seen by (by apply (body_marks x st)). apply IH.
Qed.

End LoopOverTargets.

(** The loop of a call does the same on the raw targets of the connections
    as on the Set built from them: a repeated target is called again but is
    marked by then, so the call returns at once. *)
Theorem loop_over_raw_targets mm fuel gm st :
  for_of (traverse mm fuel) (module <$> default [] (outgoingConnections gm)) st
  = for_of (traverse mm fuel) (children gm) st.
Proof.
  unfold children. rewrite new_Set_first_seen.
  destruct fuel as [|fuel].
  - by destruct (module <$> default [] (outgoingConnections gm)).
  - symmetry. apply for_of_first_seen.
    + intros x s Hx. simpl. by rewrite Hx.
    + intros x s s' Hrun. apply traverse_exec in Hrun; [|done].
      apply exec_post in Hrun as (new & _ & _ & _ & Hnormal & _).
      by apply Hnormal.
    + intros x s m. apply traverse_seen_mono.
Qed.
